(** * Webcam heart-rate monitor: the signal pipeline and the frame pass

    A shallow embedding of the monitor's signal-processing helpers
    ([detrendSignal], [lowPassFilter], [calculateMagnitudes]) and of the
    component's frame pass ([processFrame]) with [startMonitoring] and
    [stopMonitoring].

    Numbers.  A JavaScript [number] that carries a signal value is a real
    number ([R]): arithmetic is exact, there is no rounding, no NaN and no
    infinity.  Array lengths and indices are [nat] or [Z].  Division by
    zero (NaN in the source) does not arise in the statements about
    frames, which are taken with the size the canvas delivers, nor on a
    window of [BUFFER_SIZE] samples.

    React state ([useState]) and references ([useRef]) are the fields of
    one record [State], threaded through each handler; a setter called with
    an updater function is applied to the latest value, as React's update
    queue does.  Scheduling ([requestAnimationFrame]) and the camera are
    outside the model: a frame pass is one call of [processFrame] on the
    pixel data the canvas delivers. *)

From Stdlib Require Import String DecimalString.
From Stdlib Require Import Reals Lra Lia ZArith List Bool.
Import ListNotations.
Local Open Scope R_scope.

(** ** JavaScript array and [Math] helpers *)

Module Js.

(** [Math.floor] and [Math.ceil], integer valued. *)
Definition Math_floor (x : R) : Z := Zfloor x.
Definition Math_ceil (x : R) : Z := Zceil x.

(** [Math.round]: the nearest integer, a half rounds up. *)
Definition Math_round (x : R) : Z := Zfloor (x + 0.5).

Definition Math_abs (x : R) : R := Rabs x.

(** The comparisons [a > b] and [a < b] as booleans. *)
Definition gt (a b : R) : bool := if Rgt_dec a b then true else false.
Definition lt (a b : R) : bool := if Rlt_dec a b then true else false.

(** [arr.map((val, i) => f(val, i))], indices counted from [k]. *)
Fixpoint mapi_from {A B : Type} (k : nat) (f : A -> nat -> B) (l : list A)
  : list B :=
  match l with
  | [] => []
  | x :: t => f x k :: mapi_from (S k) f t
  end.

Definition mapi {A B : Type} (f : A -> nat -> B) (l : list A) : list B :=
  mapi_from 0 f l.

(** [arr.slice(start, stop)]: a negative index counts from the end, and
    both indices are clipped to the array. *)
Definition slice {A : Type} (l : list A) (start stop : Z) : list A :=
  let len := Z.of_nat (length l) in
  let k := if (start <? 0)%Z then Z.max (len + start) 0 else Z.min start len in
  let fin := if (stop <? 0)%Z then Z.max (len + stop) 0 else Z.min stop len in
  firstn (Z.to_nat (fin - k)) (skipn (Z.to_nat k) l).

(** [arr.reduce((a, b) => f(a, b), init)]. *)
Definition reduce {A B : Type} (f : B -> A -> B) (l : list A) (init : B) : B :=
  fold_left f l init.

(** [arr[i]] where the source reads inside the array (outside it the
    source would read [undefined]). *)
Definition at_ (l : list R) (i : nat) : R := nth i l 0.

(** [arr[i]] where the index may fall outside the array: [None] is
    [undefined]. *)
Definition get (l : list R) (i : Z) : option R :=
  if (i <? 0)%Z then None else nth_error l (Z.to_nat i).

(** [arr[i] = v]: inside the array the entry is replaced; at [i = length]
    the array grows by one.  A write further out would leave holes, shown
    here as zeros; every write of this program is at an index at most the
    length. *)
Definition array_set (l : list R) (i : nat) (v : R) : list R :=
  if (i <? length l)%nat then firstn i l ++ v :: skipn (S i) l
  else l ++ repeat 0 (i - length l) ++ [v].

(** [Math.min(...arr)] and [Math.max(...arr)].  The empty spread (plus or
    minus infinity in the source) has no real value; it is not reached,
    the spread array being a full window. *)
Definition Math_min (l : list R) : R :=
  match l with
  | [] => 0
  | x :: t => fold_left Rmin t x
  end.

Definition Math_max (l : list R) : R :=
  match l with
  | [] => 0
  | x :: t => fold_left Rmax t x
  end.

(** The indices of [for (let i = lo; i < hi; i++)]. *)
Definition range (lo hi : nat) : list nat := seq lo (hi - lo).

(** The indices of [for (let i = lo; i <= hi; i++)] over integers. *)
Definition range_incl (lo hi : Z) : list Z :=
  map (fun j => (lo + Z.of_nat j)%Z) (seq 0 (Z.to_nat (hi - lo + 1))).

(** [for (let i = start; cond(i); i++) acc = body(i, acc)], for a
    condition that need not be an integer bound. *)
Fixpoint for_loop {A : Type} (fuel : nat) (i : nat) (cond : nat -> bool)
         (body : nat -> A -> A) (acc : A) : A :=
  match fuel with
  | O => acc
  | S fuel' =>
      if cond i then for_loop fuel' (S i) cond body (body i acc) else acc
  end.

End Js.

Import Js.

(** ** Configuration constants *)

Definition VIDEO_WIDTH : nat := 320.
Definition VIDEO_HEIGHT : nat := 240.
Definition FPS : nat := 30.
Definition WINDOW_SECONDS : nat := 20.
Definition BUFFER_SIZE : nat := FPS * WINDOW_SECONDS.
Definition MIN_BPM : R := 45.
Definition MAX_BPM : R := 200.
Definition LOW_PASS_ALPHA : R := 0.5.
Definition MOTION_THRESHOLD : R := 4.0.
Definition COVERAGE_STD_DEV_THRESHOLD : R := 16.0.

(** ** Signal processing helpers *)

(** Detrends a signal by subtracting a moving average. *)
Definition detrendSignal (signal : list R) : list R :=
  if (length signal <? 3)%nat then signal
  else
    let movingAverage :=
      mapi (fun (_ : R) (i : nat) =>
              let start := Z.max 0 (Z.of_nat i - Math_floor (INR FPS / 2)) in
              let stop := Z.min (Z.of_nat (length signal) - 1)
                                (Z.of_nat i + Math_floor (INR FPS / 2)) in
              let subSignal := slice signal start (stop + 1) in
              let avg := reduce (fun a b => a + b) subSignal 0
                         / INR (length subSignal) in
              avg)
           signal in
    mapi (fun val i => val - at_ movingAverage i) signal.

(** Applies a simple IIR low-pass filter to a signal. *)
Definition lowPassFilter (signal : list R) (alpha : R) : list R :=
  if (length signal =? 0)%nat then []
  else
    fold_left
      (fun filteredSignal i =>
         array_set filteredSignal i
           (alpha * at_ signal i + (1 - alpha) * at_ filteredSignal (i - 1)))
      (range 1 (length signal))
      [at_ signal 0].

(** The Hanning-windowed signal of [calculateMagnitudes]. *)
Definition hanning (signal : list R) : list R :=
  let N := length signal in
  mapi (fun val i => val * (0.5 * (1 - cos ((2 * PI * INR i) / (INR N - 1)))))
       signal.

(** The inner loop of [calculateMagnitudes]: the pair [(real, imag)] after
    the sum over the time samples, for frequency bin [k]. *)
Definition dftBin (windowedSignal : list R) (N k : nat) : R * R :=
  fold_left
    (fun (acc : R * R) n =>
       let angle := (2 * PI * INR k * INR n) / INR N in
       (fst acc + at_ windowedSignal n * cos angle,
        snd acc - at_ windowedSignal n * sin angle))
    (range 0 N)
    (0, 0).

(** Calculates the magnitude spectrum of a signal using a direct DFT. *)
Definition calculateMagnitudes (signal : list R) : list R :=
  let N := length signal in
  let magnitudes := repeat 0 (Z.to_nat (Math_floor (INR N / 2))) in
  let windowedSignal := hanning signal in
  for_loop (S N) 0%nat (fun k => lt (INR k) (INR N / 2))
    (fun k magnitudes =>
       let real := fst (dftBin windowedSignal N k) in
       let imag := snd (dftBin windowedSignal N k) in
       array_set magnitudes k (sqrt (real * real + imag * imag) / INR N))
    magnitudes.

(** ** The component state *)

(** The status texts of the component. *)
Inductive Status : Type :=
| Ready                      (* 'Ready' *)
| InitializingCamera         (* 'Initializing camera...' *)
| PleaseCover                (* 'Please cover the camera lens.' *)
| MotionDetected             (* 'Motion detected. Please hold still.' *)
| Calibrating (percent : Z)  (* `Calibrating... (${percent}%)` *)
| Processing.                (* 'Processing...' *)

(** [yDomain]: [['auto', 'auto']] or a pair of numbers. *)
Inductive YDomain : Type :=
| Auto
| Bounded (lo hi : R).

Record ChartPoint : Type := mkPoint { time : nat; value : R }.

Record State : Type := mkState {
  isMonitoring : bool;
  heartRate : R;
  chartData : list ChartPoint;
  status : Status;
  error : option string;
  yDomain : YDomain;
  dataBuffer : list R;            (* dataBuffer.current *)
  lastRedAverage : option R       (* lastRedAverage.current *)
}.

Definition initialState : State :=
  {| isMonitoring := false; heartRate := 0; chartData := []; status := Ready;
     error := None; yDomain := Auto; dataBuffer := []; lastRedAverage := None |}.

Definition setIsMonitoring (b : bool) (s : State) : State :=
  mkState b (heartRate s) (chartData s) (status s) (error s) (yDomain s)
          (dataBuffer s) (lastRedAverage s).

(** [setHeartRate(prev => f(prev))]; a plain value is a constant updater. *)
Definition setHeartRate (f : R -> R) (s : State) : State :=
  mkState (isMonitoring s) (f (heartRate s)) (chartData s) (status s) (error s)
          (yDomain s) (dataBuffer s) (lastRedAverage s).

Definition setChartData (c : list ChartPoint) (s : State) : State :=
  mkState (isMonitoring s) (heartRate s) c (status s) (error s) (yDomain s)
          (dataBuffer s) (lastRedAverage s).

Definition setStatus (st : Status) (s : State) : State :=
  mkState (isMonitoring s) (heartRate s) (chartData s) st (error s) (yDomain s)
          (dataBuffer s) (lastRedAverage s).

Definition setError (e : option string) (s : State) : State :=
  mkState (isMonitoring s) (heartRate s) (chartData s) (status s) e (yDomain s)
          (dataBuffer s) (lastRedAverage s).

Definition setYDomain (f : YDomain -> YDomain) (s : State) : State :=
  mkState (isMonitoring s) (heartRate s) (chartData s) (status s) (error s)
          (f (yDomain s)) (dataBuffer s) (lastRedAverage s).

Definition set_dataBuffer (b : list R) (s : State) : State :=
  mkState (isMonitoring s) (heartRate s) (chartData s) (status s) (error s)
          (yDomain s) b (lastRedAverage s).

Definition set_lastRedAverage (a : option R) (s : State) : State :=
  mkState (isMonitoring s) (heartRate s) (chartData s) (status s) (error s)
          (yDomain s) (dataBuffer s) a.

(** ** The frame pass *)

(** The entries [data[0], data[4], data[8], ...] the two pixel loops read:
    the red channel of RGBA data. *)
Fixpoint redChannel (data : list Z) : list Z :=
  match data with
  | [] => []
  | r :: t =>
      r :: match t with
           | _ :: _ :: _ :: rest => redChannel rest
           | _ => []
           end
  end.

Definition numPixels (data : list Z) : R := INR (length data) / 4.

Definition redAverage (data : list Z) : R :=
  let redSum := fold_left (fun redSum d => redSum + IZR d) (redChannel data) 0 in
  redSum / numPixels data.

Definition redStdDev (data : list Z) : R :=
  let redSumOfSquares :=
    fold_left (fun acc d => acc + (IZR d - redAverage data) * (IZR d - redAverage data))
              (redChannel data) 0 in
  let redVariance := redSumOfSquares / numPixels data in
  sqrt redVariance.

(** The pixel data [getImageData(0, 0, VIDEO_WIDTH, VIDEO_HEIGHT)] delivers:
    four bytes for each pixel. *)
Definition validFrame (data : list Z) : Prop :=
  length data = (4 * (VIDEO_WIDTH * VIDEO_HEIGHT))%nat /\
  Forall (fun d => (0 <= d <= 255)%Z) data.

(** One iteration of the peak search of the frame pass, on the running
    pair [(peakIndex, maxMagnitude)]: a comparison with [undefined] is
    false. *)
Definition peakStep (magnitudes : list R) (acc : Z * R) (i : Z) : Z * R :=
  match get magnitudes i with
  | Some m => if gt m (snd acc) then (i, m) else acc
  | None => acc
  end.

(** The peak search over the bins [minIndex .. maxIndex], from
    [peakIndex = -1] and [maxMagnitude = -1]. *)
Definition peakSearch (magnitudes : list R) (minIndex maxIndex : Z) : Z * R :=
  fold_left (peakStep magnitudes) (range_incl minIndex maxIndex) ((-1)%Z, -1).

Definition minIndexOf (samples : nat) : Z :=
  let minFreq := MIN_BPM / 60 in
  Math_floor ((minFreq * INR samples) / INR FPS).

Definition maxIndexOf (samples : nat) : Z :=
  let maxFreq := MAX_BPM / 60 in
  Math_ceil ((maxFreq * INR samples) / INR FPS).

(** The BPM of bin [peakIndex] for a window of [samples] values. *)
Definition bpmOf (peakIndex : Z) (samples : nat) : R :=
  let sampleRate := INR FPS in
  let peakFrequency := (IZR peakIndex * sampleRate) / INR samples in
  peakFrequency * 60.

(** The range the display scaler computes from the processed signal. *)
Definition signalPadding (filtered : list R) : R :=
  let signalMin := Math_min filtered in
  let signalMax := Math_max filtered in
  if Req_dec_T ((signalMax - signalMin) * 0.1) 0 then 1
  else (signalMax - signalMin) * 0.1.

Definition nextYDomain (filtered : list R) (prevDomain : YDomain) : YDomain :=
  let signalMin := Math_min filtered in
  let signalMax := Math_max filtered in
  let signalPadding := signalPadding filtered in
  match prevDomain with
  | Auto => Bounded (signalMin - signalPadding) (signalMax + signalPadding)
  | Bounded lo hi =>
      let newMin := lo * 0.98 + (signalMin - signalPadding) * 0.02 in
      let newMax := hi * 0.98 + (signalMax + signalPadding) * 0.02 in
      Bounded newMin newMax
  end.

(** The coverage branch of [processFrame] (the lens is not covered): the
    body of [if (redStdDev > COVERAGE_STD_DEV_THRESHOLD)]. *)
Definition coverageBranch (s : State) : State :=
  let s := setStatus PleaseCover s in
  if (0 <? length (dataBuffer s))%nat then
    let s := set_dataBuffer [] s in
    let s := setHeartRate (fun _ => 0) s in
    let s := setChartData [] s in
    setYDomain (fun _ => Auto) s
  else s.

(** The motion branch of [processFrame] (a jump of the red average): the
    body of [if (diff > MOTION_THRESHOLD)]. *)
Definition motionBranch (s : State) (redAverage : R) : State :=
  let s := setStatus MotionDetected s in
  let s := set_dataBuffer [] s in
  let s := setHeartRate (fun _ => 0) s in
  let s := setChartData [] s in
  let s := setYDomain (fun _ => Auto) s in
  set_lastRedAverage (Some redAverage) s.

(** The processing branch of [processFrame], on a full buffer: the [else]
    of [if (dataBuffer.current.length < BUFFER_SIZE)]. *)
Definition processingBranch (s : State) : State :=
  let s := setStatus Processing s in
  let detrended := detrendSignal (dataBuffer s) in
  let filtered := lowPassFilter detrended LOW_PASS_ALPHA in
  let magnitudes := calculateMagnitudes filtered in
  let samples := length filtered in
  let peakIndex :=
    fst (peakSearch magnitudes (minIndexOf samples) (maxIndexOf samples)) in
  let s := if (peakIndex =? -1)%Z then s
           else
             let bpm := bpmOf peakIndex samples in
             setHeartRate (fun prev => prev * 0.9 + bpm * 0.1) s in
  let newChartData := mapi (fun value index => mkPoint index value) filtered in
  let s := setChartData newChartData s in
  setYDomain (nextYDomain filtered) s.

(** The rest of [processFrame] for a frame that passed both checks: the
    previous average is recorded, the sample pushed, the oldest sample
    shifted out when the length exceeds [BUFFER_SIZE]. *)
Definition acceptBranch (s : State) (redAverage : R) : State :=
  let s := set_lastRedAverage (Some redAverage) s in
  let s := set_dataBuffer (dataBuffer s ++ [redAverage]) s in
  let s := if (BUFFER_SIZE <? length (dataBuffer s))%nat
           then set_dataBuffer (tl (dataBuffer s)) s else s in
  if (length (dataBuffer s) <? BUFFER_SIZE)%nat then
    setStatus
      (Calibrating
         (Math_round ((INR (length (dataBuffer s)) / INR BUFFER_SIZE) * 100)))
      s
  else processingBranch s.

(** One pass of [processFrame].  [frame] is [None] when the pass returns at
    once (no video or canvas, video paused or ended, no 2d context). *)
Definition processFrame (s : State) (frame : option (list Z)) : State :=
  match frame with
  | None => s
  | Some data =>
      let redAverage := redAverage data in
      let redStdDev := redStdDev data in
      if gt redStdDev COVERAGE_STD_DEV_THRESHOLD then coverageBranch s
      else
        let motion :=
          match lastRedAverage s with
          | Some previous =>
              let diff := Math_abs (redAverage - previous) in
              gt diff MOTION_THRESHOLD
          | None => false
          end in
        if motion then motionBranch s redAverage
        else acceptBranch s redAverage
  end.

(** What the camera request of [startMonitoring] came to. *)
Inductive Camera : Type :=
| CameraOk        (* the stream is granted and the video plays *)
| CameraPlayFails (* the stream is granted, [play()] rejects *)
| CameraDenied.   (* [getUserMedia] rejects *)

(** [startMonitoring], the part before and the part after the camera
    request taken together. *)
Definition startMonitoring (s : State) (camera : Camera) : State :=
  if isMonitoring s then s
  else
    let s := setError None s in
    let s := setStatus InitializingCamera s in
    let s := set_lastRedAverage None s in
    match camera with
    | CameraOk => setIsMonitoring true s
    | CameraPlayFails =>
        setError (Some "Could not play video. Please check permissions."%string)
                 (setIsMonitoring true s)
    | CameraDenied =>
        let s := setError
                   (Some "Camera access was denied. Please allow camera access in your browser settings and refresh the page."%string)
                   s in
        setStatus Ready s
    end.

Definition stopMonitoring (s : State) : State :=
  if negb (isMonitoring s) then s
  else
    let s := setIsMonitoring false s in
    let s := setHeartRate (fun _ => 0) s in
    let s := setChartData [] s in
    let s := setStatus Ready s in
    let s := set_dataBuffer [] s in
    let s := set_lastRedAverage None s in
    setYDomain (fun _ => Auto) s.

(** ** Runs of the component *)

Inductive Event : Type :=
| EFrame (frame : option (list Z))
| EStart (camera : Camera)
| EStop.

Definition step (s : State) (e : Event) : State :=
  match e with
  | EFrame frame => processFrame s frame
  | EStart camera => startMonitoring s camera
  | EStop => stopMonitoring s
  end.

(** An event the component can receive: a delivered frame has the canvas
    size. *)
Definition validEvent (e : Event) : Prop :=
  match e with
  | EFrame (Some data) => validFrame data
  | _ => True
  end.

(** The states the component reaches from its initial state. *)
Inductive reachable : State -> Prop :=
| reach_init : reachable initialState
| reach_step s e : reachable s -> validEvent e -> reachable (step s e).

(** A run of frame passes over delivered frames. *)
Definition runFrames (s : State) (frames : list (list Z)) : State :=
  fold_left (fun s data => processFrame s (Some data)) frames s.

(** ** The quality gate's verdicts *)

Definition coverageFault (data : list Z) : Prop :=
  redStdDev data > COVERAGE_STD_DEV_THRESHOLD.

Definition motionFault (s : State) (data : list Z) : Prop :=
  match lastRedAverage s with
  | Some previous => Rabs (redAverage data - previous) > MOTION_THRESHOLD
  | None => False
  end.

(** A frame neither check rejects: its sample enters the window. *)
Definition accepted (s : State) (data : list Z) : Prop :=
  ~ coverageFault data /\ ~ motionFault s data.


(** No estimate is on display: the rate is the sentinel [0], nothing is
    plotted and the range is the auto sentinel. *)
Definition noEstimate (s : State) : Prop :=
  heartRate s = 0 /\ chartData s = [] /\ yDomain s = Auto.

(** The invariant of the sample window. *)
Definition windowInvariant (s : State) : Prop :=
  (length (dataBuffer s) <= BUFFER_SIZE)%nat /\
  ((length (dataBuffer s) < BUFFER_SIZE)%nat -> noEstimate s).

(** ** Reference formulas, in the words of the specification *)

Module Spec.

(** The sum of a finite sequence. *)
Definition sum (l : list R) : R := fold_right Rplus 0 l.

(** [bigsum N f] is the sum of [f n] for [n] from [0] to [N - 1]. *)
Definition bigsum (N : nat) (f : nat -> R) : R := sum (map f (seq 0 N)).

(** The arithmetic mean of [x] over the clipped sub-window
    [max(0, i - fps/2) .. min(N - 1, i + fps/2)], with [fps = 30] and the
    half rounded down. *)
Definition localMean (x : list R) (i : nat) : R :=
  let N := Z.of_nat (length x) in
  let lo := Z.max 0 (Z.of_nat i - 30 / 2) in
  let hi := Z.min (N - 1) (Z.of_nat i + 30 / 2) in
  sum (map (fun j => nth (Z.to_nat j) x 0) (range_incl lo hi))
  / IZR (hi - lo + 1).

(** The Hanning-windowed input [x'[n]]. *)
Definition windowed (x : list R) (n : nat) : R :=
  let N := INR (length x) in
  nth n x 0 * 0.5 * (1 - cos (2 * PI * INR n / (N - 1))).

Definition real (x : list R) (k : nat) : R :=
  let N := length x in
  bigsum N (fun n => windowed x n * cos (2 * PI * INR k * INR n / INR N)).

Definition imag (x : list R) (k : nat) : R :=
  let N := length x in
  - bigsum N (fun n => windowed x n * sin (2 * PI * INR k * INR n / INR N)).

Definition magnitude (x : list R) (k : nat) : R :=
  sqrt ((real x k) ^ 2 + (imag x k) ^ 2) / INR (length x).

(** The single-pole recursion [y[0] = x[0]],
    [y[i] = alpha * x[i] + (1 - alpha) * y[i - 1]]: [iir alpha prev xs] is
    the output for the inputs [xs] that follow an output [prev]. *)
Fixpoint iir (alpha prev : R) (xs : list R) : list R :=
  match xs with
  | [] => []
  | x :: t => let y := alpha * x + (1 - alpha) * prev in y :: iir alpha y t
  end.

Definition lowPass (alpha : R) (xs : list R) : list R :=
  match xs with
  | [] => []
  | x :: t => x :: iir alpha x t
  end.

(** The last [n] entries of a sequence, in order. *)
Definition lastn {A : Type} (n : nat) (l : list A) : list A :=
  skipn (length l - n) l.


(** [m] is the minimum (maximum) of the values of [l]. *)
Definition isMin (m : R) (l : list R) : Prop :=
  In m l /\ forall x, In x l -> m <= x.

Definition isMax (m : R) (l : list R) : Prop :=
  In m l /\ forall x, In x l -> x <= m.

End Spec.

(** ** Concrete frames *)

(** Two pixels: red values [a] and [b], opaque, no green and no blue. *)
Definition tile (a b : Z) : list Z := [a; 0; 0; 255; b; 0; 0; 255]%Z.

(** A frame of the canvas size whose pixels alternate between red [a] and
    red [b]. *)
Definition twoToneFrame (a b : Z) : list Z :=
  concat (repeat (tile a b) (VIDEO_WIDTH * VIDEO_HEIGHT / 2)).

(** ** The rendered view *)






(** What [SignalChart] renders: the line chart of its data, or the
    placeholder ['Waiting for data...'] for no data. *)
Inductive ChartView : Type :=
| LineChart (data : list ChartPoint)
| WaitingForData.

Definition SignalChart (data : list ChartPoint) : ChartView :=
  if (0 <? length data)%nat then LineChart data else WaitingForData.

(** ** Invariants of the window and of the display *)

(** Neighbouring samples differ by at most the motion threshold. *)
Fixpoint steadySamples (l : list R) : Prop :=
  match l with
  | a :: t =>
      match t with
      | b :: _ => Rabs (b - a) <= MOTION_THRESHOLD /\ steadySamples t
      | [] => True
      end
  | [] => True
  end.

(** The window holds no jump, and the previous average on record is its
    newest sample. *)
Definition steadyWindow (s : State) : Prop :=
  steadySamples (dataBuffer s) /\
  (dataBuffer s <> [] -> lastRedAverage s = Some (last (dataBuffer s) 0)).


(** What is on display with a full window: a rate within the band, one
    chart point for each sample, numbered in order, and a range of
    positive height. *)
Definition displayInvariant (s : State) : Prop :=
  0 <= heartRate s <= MAX_BPM + 1 /\
  (length (dataBuffer s) = BUFFER_SIZE ->
   4.5 <= heartRate s /\ length (chartData s) = BUFFER_SIZE /\ yDomain s <> Auto) /\
  (forall lo hi, yDomain s = Bounded lo hi -> lo < hi) /\
  (forall i, (i < length (chartData s))%nat ->
             time (nth i (chartData s) (mkPoint 0 0)) = i).

(** Every sample of the window is a red average of bytes. *)
Definition sampleInvariant (s : State) : Prop :=
  Forall (fun x => 0 <= x <= 255) (dataBuffer s).

(** A delivered frame of constant reflectance: red average 100 and red
    deviation 2. *)
Definition flatFrame (data : list Z) : Prop :=
  validFrame data /\ redAverage data = 100 /\ redStdDev data = 2.

(** The state in which a session's first frame arrives. *)
Definition sessionStart : State := startMonitoring initialState CameraOk.

(** What [n] flat frames leave behind: a window of samples 100 and a rate
    of [45 * (1 - 0.9 ^ (n - 599))]. *)
Definition afterFlat (n : nat) (s : State) : Prop :=
  dataBuffer s = repeat 100 (Nat.min n BUFFER_SIZE) /\
  (lastRedAverage s = None \/ lastRedAverage s = Some 100) /\
  heartRate s = 45 * (1 - 0.9 ^ (n - (BUFFER_SIZE - 1))).

(** Reduction of the projections of a state built by the setters. *)
Ltac fields :=
  cbn [isMonitoring heartRate chartData status error yDomain dataBuffer
       lastRedAverage setIsMonitoring setHeartRate setChartData setStatus
       setError setYDomain set_dataBuffer set_lastRedAverage] in *.

(** * Properties *)

(** ** Arrays *)

Section ArrayFacts.

Context {A B : Type}.

Lemma mapi_from_length (f : A -> nat -> B) (l : list A) (k : nat) :
  length (mapi_from k f l) = length l.
Proof.
  revert k; induction l as [| x t IH]; intro k; simpl; [reflexivity |].
  now rewrite IH.
Qed.

Lemma mapi_length (f : A -> nat -> B) (l : list A) :
  length (mapi f l) = length l.
Proof. apply mapi_from_length. Qed.

Lemma mapi_from_nth (f : A -> nat -> B) (l : list A) (k i : nat) (da : A) (db : B) :
  (i < length l)%nat ->
  nth i (mapi_from k f l) db = f (nth i l da) (k + i)%nat.
Proof.
  revert k i; induction l as [| x t IH]; intros k i Hi; simpl in Hi; [lia |].
  destruct i as [| i]; simpl.
  - now rewrite Nat.add_0_r.
  - rewrite IH by lia. f_equal; lia.
Qed.

Lemma mapi_nth (f : A -> nat -> B) (l : list A) (i : nat) (da : A) (db : B) :
  (i < length l)%nat -> nth i (mapi f l) db = f (nth i l da) i.
Proof. intro Hi. unfold mapi. now rewrite (mapi_from_nth f l 0 i da db Hi). Qed.

Lemma firstn_skipn_seq (l : list A) (d : A) (a m : nat) :
  (a + m <= length l)%nat ->
  firstn m (skipn a l) = map (fun j => nth j l d) (seq a m).
Proof.
  revert a m; induction l as [| x t IH]; intros a m H; simpl in H.
  - assert (a = 0%nat) by lia. assert (m = 0%nat) by lia. subst. reflexivity.
  - destruct a as [| a].
    + simpl skipn. destruct m as [| m]; [reflexivity |].
      simpl. f_equal.
      specialize (IH 0%nat m). simpl skipn in IH. rewrite IH by lia.
      rewrite <- seq_shift, map_map. reflexivity.
    + simpl skipn. rewrite IH by lia.
      rewrite <- seq_shift, map_map. reflexivity.
Qed.

Lemma slice_inside (l : list A) (a b : Z) :
  (0 <= a <= b)%Z -> (b <= Z.of_nat (length l))%Z ->
  slice l a b = firstn (Z.to_nat (b - a)) (skipn (Z.to_nat a) l).
Proof.
  intros Hab Hb. unfold slice.
  destruct (Z.ltb_spec a 0); [lia |].
  destruct (Z.ltb_spec b 0); [lia |].
  rewrite !Z.min_l by lia. reflexivity.
Qed.

End ArrayFacts.

Lemma fold_left_Rplus_sum (l : list R) (a : R) :
  fold_left (fun x y => x + y) l a = a + Spec.sum l.
Proof.
  revert a; induction l as [| x t IH]; intro a; simpl; [lra |].
  rewrite IH. lra.
Qed.

Lemma sum_repeat (c : R) (n : nat) : Spec.sum (repeat c n) = INR n * c.
Proof.
  induction n as [| n IH]; [simpl; lra |].
  rewrite S_INR. simpl. rewrite IH. lra.
Qed.

Lemma array_set_push (l : list R) (v : R) :
  array_set l (length l) v = l ++ [v].
Proof.
  unfold array_set. rewrite Nat.ltb_irrefl, Nat.sub_diag. reflexivity.
Qed.

Lemma half_fps : Math_floor (INR FPS / 2) = 15%Z.
Proof.
  unfold Math_floor, FPS. apply Zfloor_eq.
  rewrite INR_IZR_INZ. simpl. lra.
Qed.

Lemma range_incl_to_nat (lo hi : Z) :
  (0 <= lo)%Z ->
  map Z.to_nat (range_incl lo hi)
  = seq (Z.to_nat lo) (Z.to_nat (hi - lo + 1)).
Proof.
  intro Hlo. unfold range_incl. rewrite map_map.
  generalize (Z.to_nat (hi - lo + 1)) as m.
  assert (G : forall m a,
             map (fun j => Z.to_nat (lo + Z.of_nat j)) (seq a m)
             = seq (Z.to_nat lo + a) m).
  { induction m as [| m IH]; intro a; simpl; [reflexivity |].
    f_equal; [lia |]. rewrite IH. f_equal; lia. }
  intro m. rewrite G. f_equal; lia.
Qed.

(** ** The detrender *)

Section Detrender.

Variable signal : list R.
Hypothesis long : (3 <= length signal)%nat.

Lemma detrendSignal_length : length (detrendSignal signal) = length signal.
Proof.
  unfold detrendSignal.
  destruct (Nat.ltb_spec (length signal) 3); [reflexivity |].
  apply mapi_length.
Qed.

Lemma detrendSignal_nth (i : nat) :
  (i < length signal)%nat ->
  nth i (detrendSignal signal) 0 = nth i signal 0 - Spec.localMean signal i.
Proof.
  intro Hi. unfold detrendSignal.
  destruct (Nat.ltb_spec (length signal) 3); [lia |].
  rewrite (mapi_nth _ signal i 0 0 Hi).
  unfold at_. rewrite (mapi_nth _ signal i 0 0 Hi).
  f_equal. rewrite half_fps. unfold Spec.localMean.
  change (30 / 2)%Z with 15%Z.
  set (lo := Z.max 0 (Z.of_nat i - 15)).
  set (hi := Z.min (Z.of_nat (length signal) - 1) (Z.of_nat i + 15)).
  assert (Hlo : (0 <= lo <= Z.of_nat i)%Z) by (unfold lo; lia).
  assert (Hhi : (Z.of_nat i <= hi < Z.of_nat (length signal))%Z) by (unfold hi; lia).
  rewrite slice_inside by lia.
  rewrite (firstn_skipn_seq signal 0) by lia.
  unfold reduce. rewrite fold_left_Rplus_sum, Rplus_0_l.
  rewrite length_map, length_seq.
  replace (hi + 1 - lo)%Z with (hi - lo + 1)%Z by lia.
  rewrite INR_IZR_INZ, Z2Nat.id by lia.
  f_equal. f_equal.
  rewrite <- (range_incl_to_nat lo hi) by lia.
  now rewrite map_map.
Qed.

End Detrender.

(** C5. The detrender is the identity on signals shorter than three
    samples; on a signal of [N >= 3] samples the output has [N] samples and
    its entry [i] is the input's entry [i] minus the arithmetic mean of the
    input over the clipped sub-window
    [max(0, i - 15) .. min(N - 1, i + 15)]. *)
Theorem detrendSignal_local_mean (signal : list R) :
  ((length signal < 3)%nat -> detrendSignal signal = signal) /\
  ((3 <= length signal)%nat ->
   length (detrendSignal signal) = length signal /\
   forall i, (i < length signal)%nat ->
     nth i (detrendSignal signal) 0
     = nth i signal 0 - Spec.localMean signal i).
Proof.
  split.
  - intro H. unfold detrendSignal.
    destruct (Nat.ltb_spec (length signal) 3); [reflexivity | lia].
  - intro H. split.
    + now apply detrendSignal_length.
    + intros i Hi. now apply detrendSignal_nth.
Qed.

Lemma detrendSignal_local_mean_witness :
  detrendSignal [1; 2] = [1; 2] /\
  nth 1 (detrendSignal [3; 1; 4; 1; 5]) 0
  = nth 1 [3; 1; 4; 1; 5] 0 - Spec.localMean [3; 1; 4; 1; 5] 1.
Proof.
  split.
  - apply (proj1 (detrendSignal_local_mean [1; 2])). simpl. lia.
  - apply (proj2 (detrendSignal_local_mean [3; 1; 4; 1; 5])); simpl; lia.
Defined.

(** ** The smoothing filter *)

Lemma nth_last_index (l : list R) :
  nth (length l - 1) l 0 = last l 0.
Proof.
  induction l as [| x t IH]; [reflexivity |].
  destruct t as [| y t']; [reflexivity |].
  replace (length (x :: y :: t') - 1)%nat with (S (length (y :: t') - 1))
    by (cbn [length]; lia).
  change (nth (S (length (y :: t') - 1)) (x :: y :: t') 0)
    with (nth (length (y :: t') - 1) (y :: t') 0).
  rewrite IH. reflexivity.
Qed.

Lemma lowPass_step (alpha x : R) (t pre acc : list R) :
  length acc = length pre ->
  array_set acc (length pre)
    (alpha * at_ (pre ++ x :: t) (length pre)
     + (1 - alpha) * at_ acc (length pre - 1))
  = acc ++ [alpha * x + (1 - alpha) * last acc 0].
Proof.
  intro Hlen. unfold at_. rewrite nth_middle.
  rewrite <- Hlen, array_set_push, nth_last_index. reflexivity.
Qed.

Lemma lowPass_loop (alpha : R) (xs pre acc : list R) :
  length acc = length pre -> acc <> [] ->
  fold_left
    (fun filteredSignal i =>
       array_set filteredSignal i
         (alpha * at_ (pre ++ xs) i + (1 - alpha) * at_ filteredSignal (i - 1)))
    (seq (length pre) (length xs)) acc
  = acc ++ Spec.iir alpha (last acc 0) xs.
Proof.
  revert pre acc; induction xs as [| x t IH]; intros pre acc Hlen Hne.
  - simpl. now rewrite app_nil_r.
  - cbn [length seq fold_left].
    rewrite lowPass_step by exact Hlen.
    specialize (IH (pre ++ [x]) (acc ++ [alpha * x + (1 - alpha) * last acc 0])).
    rewrite <- app_assoc in IH. cbn [app] in IH.
    rewrite !length_app in IH. cbn [length] in IH.
    rewrite !Nat.add_1_r in IH.
    rewrite IH.
    + rewrite last_last, <- app_assoc. reflexivity.
    + lia.
    + intro E. apply app_eq_nil in E. destruct E as [_ E]. discriminate.
Qed.

(** The filter computes the single-pole recursion. *)
Lemma lowPassFilter_recursion (signal : list R) (alpha : R) :
  lowPassFilter signal alpha = Spec.lowPass alpha signal.
Proof.
  unfold lowPassFilter. destruct signal as [| x t]; [reflexivity |].
  cbn [length Nat.eqb]. unfold range.
  replace (S (length t) - 1)%nat with (length t) by lia.
  assert (Hne : [x] <> []) by discriminate.
  exact (lowPass_loop alpha t [x] [x] eq_refl Hne).
Qed.

Lemma iir_constant (alpha c : R) (n : nat) :
  Spec.iir alpha c (repeat c n) = repeat c n.
Proof.
  induction n as [| n IH]; [reflexivity |].
  cbn [repeat Spec.iir].
  replace (alpha * c + (1 - alpha) * c) with c by ring.
  now rewrite IH.
Qed.

(** C6. The low-pass filter returns the empty sequence exactly for the
    empty input, and maps every constant sequence to itself. *)
Theorem lowPassFilter_constant (alpha : R) :
  (forall signal, lowPassFilter signal alpha = [] <-> signal = []) /\
  (forall c n, lowPassFilter (repeat c (S n)) alpha = repeat c (S n)).
Proof.
  split.
  - intro signal. rewrite lowPassFilter_recursion.
    destruct signal; simpl; split; intro H; try reflexivity; discriminate.
  - intros c n. rewrite lowPassFilter_recursion.
    cbn [repeat Spec.lowPass]. now rewrite iir_constant.
Qed.

(** ** The spectral estimator *)

Lemma for_loop_bound {A : Type} (bound : nat) (cond : nat -> bool)
      (body : nat -> A -> A) :
  (forall k, cond k = true <-> (k < bound)%nat) ->
  forall fuel i acc,
    (bound - i < fuel)%nat ->
    for_loop fuel i cond body acc
    = fold_left (fun acc k => body k acc) (seq i (bound - i)) acc.
Proof.
  intro Hc. induction fuel as [| fuel IH]; intros i acc Hf; [lia |].
  cbn [for_loop]. destruct (cond i) eqn:E.
  - apply Hc in E. rewrite IH by lia.
    replace (bound - i)%nat with (S (bound - S i)) by lia. reflexivity.
  - assert (~ (i < bound)%nat) as Hn by (rewrite <- Hc, E; discriminate).
    replace (bound - i)%nat with 0%nat by lia. reflexivity.
Qed.

Lemma lt_half (k N : nat) :
  lt (INR k) (INR N / 2) = true <-> (k < (N + 1) / 2)%nat.
Proof.
  unfold lt. destruct (Rlt_dec (INR k) (INR N / 2)) as [H | H].
  - split; [intros _ | reflexivity].
    assert (H2 : INR (2 * k) < INR N) by (rewrite mult_INR; simpl; lra).
    apply INR_lt in H2.
    pose proof (Nat.div_mod_eq (N + 1) 2). pose proof (Nat.mod_upper_bound (N + 1) 2). lia.
  - split; [discriminate | intro Hk]. exfalso. apply H.
    assert (H2 : (2 * k < N)%nat).
    { pose proof (Nat.div_mod_eq (N + 1) 2). pose proof (Nat.mod_upper_bound (N + 1) 2). lia. }
    apply lt_INR in H2. rewrite mult_INR in H2. simpl in H2. lra.
Qed.

Lemma floor_half (N : nat) : Math_floor (INR N / 2) = Z.of_nat (N / 2).
Proof.
  unfold Math_floor. apply Zfloor_eq.
  pose proof (Nat.div_mod_eq N 2) as E. pose proof (Nat.mod_upper_bound N 2) as U.
  rewrite <- INR_IZR_INZ.
  assert (E' : INR N = 2 * INR (N / 2) + INR (N mod 2)).
  { rewrite E at 1. rewrite plus_INR, mult_INR. simpl. lra. }
  assert (0 <= INR (N mod 2)) by apply pos_INR.
  assert (INR (N mod 2) < 2).
  { change 2 with (INR 2). apply lt_INR. lia. }
  lra.
Qed.

(** Writing [f 0], [f 1], ... at the indices [0], [1], ... of an array. *)
Lemma fill_loop (f : nat -> R) (B : nat) (l : list R) :
  (B <= S (length l))%nat ->
  fold_left (fun acc k => array_set acc k (f k)) (seq 0 B) l
  = map f (seq 0 B) ++ skipn B l.
Proof.
  induction B as [| B IH]; intro HB; [reflexivity |].
  rewrite seq_S, fold_left_app, map_app. cbn [fold_left map Nat.add].
  rewrite IH by lia.
  assert (Hlen : length (map f (seq 0 B)) = B) by now rewrite length_map, length_seq.
  unfold array_set. rewrite length_app, Hlen, length_skipn.
  destruct (Nat.ltb_spec B (B + (length l - B))) as [Hlt | Hge].
  - rewrite firstn_app, Hlen, Nat.sub_diag, firstn_O, app_nil_r.
    rewrite firstn_all2 by lia.
    rewrite skipn_app, Hlen.
    rewrite (skipn_all2 (map f (seq 0 B))) by lia.
    replace (S B - B)%nat with 1%nat by lia. rewrite skipn_skipn.
    rewrite <- app_assoc. reflexivity.
  - assert (length l = B) by lia. subst B.
    rewrite skipn_all. rewrite (skipn_all2 l) by lia.
    replace (length l - (length l + (length l - length l)))%nat with 0%nat by lia.
    rewrite !app_nil_r. reflexivity.
Qed.

Lemma dft_loop (g h : nat -> R) (l : list nat) (a b : R) :
  fold_left (fun (acc : R * R) n => (fst acc + g n, snd acc - h n)) l (a, b)
  = (a + Spec.sum (map g l), b - Spec.sum (map h l)).
Proof.
  revert a b; induction l as [| n t IH]; intros a b; simpl.
  - f_equal; lra.
  - rewrite IH. f_equal; lra.
Qed.

Lemma hanning_at (signal : list R) (n : nat) :
  (n < length signal)%nat -> at_ (hanning signal) n = Spec.windowed signal n.
Proof.
  intro Hn. unfold at_, hanning, Spec.windowed.
  rewrite (mapi_nth _ signal n 0 0 Hn). ring.
Qed.

Lemma dftBin_spec (signal : list R) (k : nat) :
  dftBin (hanning signal) (length signal) k = (Spec.real signal k, Spec.imag signal k).
Proof.
  unfold dftBin, range. rewrite Nat.sub_0_r.
  rewrite (dft_loop
             (fun n => at_ (hanning signal) n
                       * cos (2 * PI * INR k * INR n / INR (length signal)))
             (fun n => at_ (hanning signal) n
                       * sin (2 * PI * INR k * INR n / INR (length signal)))).
  unfold Spec.real, Spec.imag, Spec.bigsum.
  assert (E : forall trig : R -> R,
             map (fun n => at_ (hanning signal) n
                           * trig (2 * PI * INR k * INR n / INR (length signal)))
                 (seq 0 (length signal))
             = map (fun n => Spec.windowed signal n
                             * trig (2 * PI * INR k * INR n / INR (length signal)))
                   (seq 0 (length signal))).
  { intro trig. apply map_ext_in. intros n Hn. apply in_seq in Hn.
    rewrite hanning_at by lia. reflexivity. }
  rewrite !E. f_equal; lra.
Qed.

(** The spectrum as the source computes it: one value for every integer
    [k] with [k < N / 2], that is [(N + 1) / 2] values, rounded down. *)
Lemma calculateMagnitudes_map (signal : list R) :
  calculateMagnitudes signal
  = map (Spec.magnitude signal) (seq 0 ((length signal + 1) / 2)).
Proof.
  unfold calculateMagnitudes.
  rewrite (for_loop_bound ((length signal + 1) / 2)).
  - rewrite Nat.sub_0_r, floor_half, Nat2Z.id.
    rewrite (fill_loop
               (fun k =>
                  sqrt (fst (dftBin (hanning signal) (length signal) k)
                        * fst (dftBin (hanning signal) (length signal) k)
                        + snd (dftBin (hanning signal) (length signal) k)
                          * snd (dftBin (hanning signal) (length signal) k))
                  / INR (length signal))).
    + rewrite skipn_all2.
      * rewrite app_nil_r. apply map_ext. intro k.
        rewrite dftBin_spec. unfold Spec.magnitude. cbn [fst snd].
        f_equal. f_equal. ring.
      * rewrite repeat_length.
        pose proof (Nat.div_mod_eq (length signal + 1) 2).
        pose proof (Nat.div_mod_eq (length signal) 2).
        pose proof (Nat.mod_upper_bound (length signal + 1) 2).
        pose proof (Nat.mod_upper_bound (length signal) 2). lia.
    + rewrite repeat_length.
      pose proof (Nat.div_mod_eq (length signal + 1) 2).
      pose proof (Nat.div_mod_eq (length signal) 2).
      pose proof (Nat.mod_upper_bound (length signal + 1) 2).
      pose proof (Nat.mod_upper_bound (length signal) 2). lia.
  - intro k. apply lt_half.
  - pose proof (Nat.div_mod_eq (length signal + 1) 2).
    pose proof (Nat.mod_upper_bound (length signal + 1) 2). lia.
Qed.

Lemma calculateMagnitudes_length (signal : list R) :
  length (calculateMagnitudes signal) = ((length signal + 1) / 2)%nat.
Proof. now rewrite calculateMagnitudes_map, length_map, length_seq. Qed.

Lemma calculateMagnitudes_nth (signal : list R) (k : nat) :
  (k < (length signal + 1) / 2)%nat ->
  nth k (calculateMagnitudes signal) 0 = Spec.magnitude signal k.
Proof.
  intro Hk. rewrite calculateMagnitudes_map.
  rewrite (nth_indep _ 0 (Spec.magnitude signal 0))
    by now rewrite length_map, length_seq.
  rewrite map_nth, seq_nth by exact Hk. reflexivity.
Qed.

(** For a signal of even length the spectrum has [N / 2] values, each the
    magnitude of the windowed transform. *)
Lemma calculateMagnitudes_even (signal : list R) :
  Nat.even (length signal) = true ->
  length (calculateMagnitudes signal) = (length signal / 2)%nat /\
  forall k, (k < length signal / 2)%nat ->
    nth k (calculateMagnitudes signal) 0 = Spec.magnitude signal k.
Proof.
  intro He. apply Nat.even_spec in He. destruct He as [m Hm].
  assert (E : ((length signal + 1) / 2 = length signal / 2)%nat).
  { pose proof (Nat.div_mod_eq (length signal + 1) 2).
    pose proof (Nat.div_mod_eq (length signal) 2).
    pose proof (Nat.mod_upper_bound (length signal + 1) 2).
    pose proof (Nat.mod_upper_bound (length signal) 2). lia. }
  split.
  - now rewrite calculateMagnitudes_length.
  - intros k Hk. apply calculateMagnitudes_nth. lia.
Qed.


(** ** The frame pass *)

Lemma BUFFER_SIZE_value : BUFFER_SIZE = 600%nat.
Proof. reflexivity. Qed.

Lemma BUFFER_SIZE_pos : (0 < BUFFER_SIZE)%nat.
Proof. rewrite BUFFER_SIZE_value. lia. Qed.

Lemma gt_true (a b : R) : gt a b = true <-> a > b.
Proof. unfold gt. destruct (Rgt_dec a b); split; intro; try easy. Qed.

Lemma gt_false (a b : R) : gt a b = false <-> ~ a > b.
Proof. unfold gt. destruct (Rgt_dec a b); split; intro; try easy. Qed.

Lemma processFrame_coverage (s : State) (data : list Z) :
  coverageFault data -> processFrame s (Some data) = coverageBranch s.
Proof.
  intro H. unfold processFrame. apply gt_true in H. now rewrite H.
Qed.

Lemma processFrame_motion (s : State) (data : list Z) :
  ~ coverageFault data -> motionFault s data ->
  processFrame s (Some data) = motionBranch s (redAverage data).
Proof.
  intros Hc Hm. unfold processFrame. apply gt_false in Hc. rewrite Hc.
  unfold motionFault in Hm. destruct (lastRedAverage s) as [p |]; [| easy].
  unfold Math_abs. apply gt_true in Hm. now rewrite Hm.
Qed.

Lemma processFrame_accept (s : State) (data : list Z) :
  accepted s data ->
  processFrame s (Some data) = acceptBranch s (redAverage data).
Proof.
  intros [Hc Hm]. unfold processFrame. apply gt_false in Hc. rewrite Hc.
  unfold motionFault in Hm. destruct (lastRedAverage s) as [p |]; [| reflexivity].
  unfold Math_abs. apply gt_false in Hm. now rewrite Hm.
Qed.

(** The three ways a pass over a delivered frame can go. *)
Lemma processFrame_cases (s : State) (data : list Z) :
  (coverageFault data /\ processFrame s (Some data) = coverageBranch s) \/
  (~ coverageFault data /\ motionFault s data /\
   processFrame s (Some data) = motionBranch s (redAverage data)) \/
  (accepted s data /\ processFrame s (Some data) = acceptBranch s (redAverage data)).
Proof.
  destruct (Rgt_dec (redStdDev data) COVERAGE_STD_DEV_THRESHOLD) as [Hc | Hc].
  - left. split; [exact Hc | now apply processFrame_coverage].
  - right.
    assert (D : motionFault s data \/ ~ motionFault s data).
    { unfold motionFault. destruct (lastRedAverage s) as [p |]; [| now right].
      destruct (Rgt_dec (Rabs (redAverage data - p)) MOTION_THRESHOLD); [now left | now right]. }
    destruct D as [Hm | Hm].
    + left. repeat split; try assumption. now apply processFrame_motion.
    + right. split; [now split |]. apply processFrame_accept. now split.
Qed.

Lemma processingBranch_buffer (s : State) :
  dataBuffer (processingBranch s) = dataBuffer s /\
  lastRedAverage (processingBranch s) = lastRedAverage s /\
  status (processingBranch s) = Processing /\
  isMonitoring (processingBranch s) = isMonitoring s.
Proof.
  unfold processingBranch. fields.
  destruct (_ =? -1)%Z; fields; repeat split; reflexivity.
Qed.

(** The window after a sample is pushed, and the oldest one shifted out
    when the length exceeds the capacity. *)
Lemma acceptBranch_buffer (s : State) (x : R) :
  dataBuffer (acceptBranch s x)
  = (if (BUFFER_SIZE <? length (dataBuffer s ++ [x]))%nat
     then tl (dataBuffer s ++ [x]) else dataBuffer s ++ [x]) /\
  lastRedAverage (acceptBranch s x) = Some x.
Proof.
  unfold acceptBranch. fields.
  destruct (BUFFER_SIZE <? length (dataBuffer s ++ [x]))%nat; fields.
  - destruct (length (tl (dataBuffer s ++ [x])) <? BUFFER_SIZE)%nat; fields.
    + split; reflexivity.
    + destruct (processingBranch_buffer
                  (set_dataBuffer (tl (dataBuffer s ++ [x]))
                     (set_dataBuffer (dataBuffer s ++ [x])
                        (set_lastRedAverage (Some x) s)))) as (-> & -> & _).
      fields. split; reflexivity.
  - destruct (length (dataBuffer s ++ [x]) <? BUFFER_SIZE)%nat; fields.
    + split; reflexivity.
    + destruct (processingBranch_buffer
                  (set_dataBuffer (dataBuffer s ++ [x])
                     (set_lastRedAverage (Some x) s))) as (-> & -> & _).
      fields. split; reflexivity.
Qed.

Lemma acceptBranch_length (s : State) (x : R) :
  (length (dataBuffer s) <= BUFFER_SIZE)%nat ->
  length (dataBuffer (acceptBranch s x))
  = Nat.min (S (length (dataBuffer s))) BUFFER_SIZE.
Proof.
  intro H. destruct (acceptBranch_buffer s x) as [-> _].
  pose proof BUFFER_SIZE_pos.
  destruct (Nat.ltb_spec BUFFER_SIZE (length (dataBuffer s ++ [x]))) as [L | L];
    rewrite length_app in L; cbn [length] in L.
  - destruct (dataBuffer s) as [| y t]; cbn [app tl length] in *; [lia |].
    rewrite length_app. cbn [length]. lia.
  - rewrite length_app. cbn [length]. lia.
Qed.

(** While the window is not full the pass only reports the calibration
    percentage. *)
Lemma acceptBranch_calibrating (s : State) (x : R) :
  (length (dataBuffer (acceptBranch s x)) < BUFFER_SIZE)%nat ->
  status (acceptBranch s x)
  = Calibrating
      (Math_round (INR (length (dataBuffer (acceptBranch s x))) / INR BUFFER_SIZE * 100)) /\
  heartRate (acceptBranch s x) = heartRate s /\
  chartData (acceptBranch s x) = chartData s /\
  yDomain (acceptBranch s x) = yDomain s.
Proof.
  unfold acceptBranch. fields.
  destruct (BUFFER_SIZE <? length (dataBuffer s ++ [x]))%nat; fields.
  - destruct (Nat.ltb_spec (length (tl (dataBuffer s ++ [x]))) BUFFER_SIZE); fields.
    + intros _. repeat split; reflexivity.
    + intro L. exfalso.
      destruct (processingBranch_buffer
                  (set_dataBuffer (tl (dataBuffer s ++ [x]))
                     (set_dataBuffer (dataBuffer s ++ [x])
                        (set_lastRedAverage (Some x) s)))) as (E & _).
      rewrite E in L. fields. lia.
  - destruct (Nat.ltb_spec (length (dataBuffer s ++ [x])) BUFFER_SIZE); fields.
    + intros _. repeat split; reflexivity.
    + intro L. exfalso.
      destruct (processingBranch_buffer
                  (set_dataBuffer (dataBuffer s ++ [x])
                     (set_lastRedAverage (Some x) s))) as (E & _).
      rewrite E in L. fields. lia.
Qed.

(** ** The window invariant *)

Lemma windowInvariant_processFrame (s : State) (frame : option (list Z)) :
  windowInvariant s -> windowInvariant (processFrame s frame).
Proof.
  intros [Hlen Hidle]. destruct frame as [data |]; [| now split].
  pose proof BUFFER_SIZE_pos as Hpos.
  destruct (processFrame_cases s data) as [[_ ->] | [(_ & _ & ->) | [_ ->]]].
  - unfold coverageBranch. fields.
    destruct (Nat.ltb_spec 0 (length (dataBuffer s))); unfold windowInvariant, noEstimate; fields.
    + cbn [length]. split; [lia | intros _; repeat split; reflexivity].
    + split; [lia | intros _; apply Hidle; lia].
  - unfold motionBranch, windowInvariant, noEstimate. fields. cbn [length].
    split; [lia | intros _; repeat split; reflexivity].
  - split.
    + rewrite acceptBranch_length by exact Hlen. lia.
    + intro L. destruct (acceptBranch_calibrating s (redAverage data) L) as (_ & Hr & Hc & Hy).
      rewrite acceptBranch_length in L by exact Hlen.
      unfold noEstimate. rewrite Hr, Hc, Hy. apply Hidle. lia.
Qed.

Lemma windowInvariant_step (s : State) (e : Event) :
  windowInvariant s -> windowInvariant (step s e).
Proof.
  intro H. destruct e as [frame | camera |]; cbn [step].
  - now apply windowInvariant_processFrame.
  - unfold startMonitoring. destruct (isMonitoring s); [exact H |].
    destruct H as [Hlen Hidle].
    destruct camera; unfold windowInvariant, noEstimate in *; fields; split; assumption.
  - unfold stopMonitoring. destruct (isMonitoring s); cbn [negb]; [| exact H].
    pose proof BUFFER_SIZE_pos.
    unfold windowInvariant, noEstimate. fields. cbn [length].
    split; [lia | intros _; repeat split; reflexivity].
Qed.

Lemma reachable_windowInvariant (s : State) :
  reachable s -> windowInvariant s.
Proof.
  induction 1 as [| s e _ IH _].
  - pose proof BUFFER_SIZE_pos.
    unfold windowInvariant, noEstimate, initialState; fields; cbn [length].
    split; [lia | intros _; repeat split; reflexivity].
  - now apply windowInvariant_step.
Qed.

(** C10. In every state reached from the initial state by frame passes,
    starts and stops, a sample window that is not full comes with a heart
    rate of exactly 0, no chart data and the auto range. *)
Theorem partial_window_has_no_estimate (s : State) :
  reachable s ->
  (length (dataBuffer s) < BUFFER_SIZE)%nat ->
  heartRate s = 0 /\ chartData s = [] /\ yDomain s = Auto.
Proof.
  intros Hr Hlen. apply reachable_windowInvariant in Hr.
  destruct Hr as [_ Hidle]. exact (Hidle Hlen).
Qed.

(** ** Two-tone frames *)

Lemma pixelPairs_pos : (0 < VIDEO_WIDTH * VIDEO_HEIGHT / 2)%nat.
Proof.
  apply Nat.div_str_pos. unfold VIDEO_WIDTH, VIDEO_HEIGHT. lia.
Qed.

Lemma tiles_length (a b : Z) (n : nat) :
  length (concat (repeat (tile a b) n)) = (8 * n)%nat.
Proof.
  induction n as [| n IH]; [reflexivity |].
  cbn [repeat concat]. rewrite length_app, IH. cbn [tile length]. lia.
Qed.

Lemma tiles_bytes (a b : Z) (n : nat) :
  (0 <= a <= 255)%Z -> (0 <= b <= 255)%Z ->
  Forall (fun d => (0 <= d <= 255)%Z) (concat (repeat (tile a b) n)).
Proof.
  intros Ha Hb. induction n as [| n IH]; [constructor |].
  cbn [repeat concat]. apply Forall_app. split; [| exact IH].
  unfold tile. repeat (constructor; [lia |]). constructor.
Qed.

Lemma twoToneFrame_valid (a b : Z) :
  (0 <= a <= 255)%Z -> (0 <= b <= 255)%Z -> validFrame (twoToneFrame a b).
Proof.
  intros Ha Hb. split; [| now apply tiles_bytes].
  unfold twoToneFrame. rewrite tiles_length.
  unfold VIDEO_WIDTH, VIDEO_HEIGHT.
  pose proof (Nat.div_mod_eq (320 * 240) 2) as E.
  replace ((320 * 240) mod 2)%nat with 0%nat in E by reflexivity.
  lia.
Qed.

(** The three frames of the scenarios below: a covered lens (red average
    100, deviation 2), an uncovered lens (deviation 127.5) and a covered
    lens after a jump (red average 110). *)
Lemma flatFrame_valid : validFrame (twoToneFrame 98 102).
Proof. apply twoToneFrame_valid; lia. Qed.

Lemma uncoveredFrame_valid : validFrame (twoToneFrame 0 255).
Proof. apply twoToneFrame_valid; lia. Qed.

Lemma jumpFrame_valid : validFrame (twoToneFrame 110 110).
Proof. apply twoToneFrame_valid; lia. Qed.

Lemma tiles_redChannel (a b : Z) (n : nat) :
  redChannel (concat (repeat (tile a b) n)) = concat (repeat [a; b] n).
Proof.
  induction n as [| n IH]; [reflexivity |].
  cbn [repeat concat tile app redChannel]. now rewrite IH.
Qed.

Lemma fold_pairs (g : Z -> R) (a b : Z) (n : nat) (acc : R) :
  fold_left (fun acc d => acc + g d) (concat (repeat [a; b] n)) acc
  = acc + INR n * (g a + g b).
Proof.
  revert acc; induction n as [| n IH]; intro acc.
  - simpl. lra.
  - cbn [repeat concat app fold_left]. rewrite IH, S_INR. lra.
Qed.

Section Tiles.

Variables (a b : Z) (n : nat).
Hypothesis some_tiles : (0 < n)%nat.

Let frame := concat (repeat (tile a b) n).

Lemma tiles_numPixels : numPixels frame = 2 * INR n.
Proof.
  unfold numPixels, frame. rewrite tiles_length, mult_INR.
  replace (INR 8) with 8 by (simpl; lra). lra.
Qed.

Lemma tiles_redAverage : redAverage frame = (IZR a + IZR b) / 2.
Proof.
  unfold redAverage. rewrite tiles_numPixels.
  unfold frame. rewrite tiles_redChannel, (fold_pairs IZR).
  apply lt_0_INR in some_tiles. field. lra.
Qed.

Lemma tiles_redStdDev : redStdDev frame = Rabs ((IZR a - IZR b) / 2).
Proof.
  unfold redStdDev. rewrite tiles_numPixels, tiles_redAverage.
  unfold frame. rewrite tiles_redChannel.
  rewrite (fold_pairs (fun d => (IZR d - (IZR a + IZR b) / 2)
                                * (IZR d - (IZR a + IZR b) / 2))).
  apply lt_0_INR in some_tiles.
  rewrite <- sqrt_Rsqr_abs. f_equal. unfold Rsqr. field. lra.
Qed.

End Tiles.

Lemma twoToneFrame_redAverage (a b : Z) :
  redAverage (twoToneFrame a b) = (IZR a + IZR b) / 2.
Proof. exact (tiles_redAverage a b _ pixelPairs_pos). Qed.

Lemma twoToneFrame_redStdDev (a b : Z) :
  redStdDev (twoToneFrame a b) = Rabs ((IZR a - IZR b) / 2).
Proof. exact (tiles_redStdDev a b _ pixelPairs_pos). Qed.

Opaque twoToneFrame.

(** A frame of red average 100 and red deviation 2. *)
Lemma flatFrame_extract :
  redAverage (twoToneFrame 98 102) = 100 /\ redStdDev (twoToneFrame 98 102) = 2.
Proof.
  rewrite twoToneFrame_redAverage, twoToneFrame_redStdDev. split; [lra |].
  replace ((98 - 102) / 2) with (- (2)) by lra.
  rewrite Rabs_Ropp. apply Rabs_pos_eq. lra.
Qed.




(** ** The quality gate *)






(** ** The sliding sample window *)

Lemma lastn_short {A : Type} (n : nat) (l : list A) :
  (length l <= n)%nat -> Spec.lastn n l = l.
Proof.
  intro H. unfold Spec.lastn. now replace (length l - n)%nat with 0%nat by lia.
Qed.

Lemma lastn_one_over {A : Type} (n : nat) (l : list A) :
  length l = S n -> Spec.lastn n l = tl l.
Proof.
  intro H. unfold Spec.lastn. rewrite H.
  replace (S n - n)%nat with 1%nat by lia. now destruct l.
Qed.


Lemma acceptBranch_lastn (s : State) (x : R) :
  (length (dataBuffer s) <= BUFFER_SIZE)%nat ->
  dataBuffer (acceptBranch s x) = Spec.lastn BUFFER_SIZE (dataBuffer s ++ [x]).
Proof.
  intro H. destruct (acceptBranch_buffer s x) as [-> _].
  destruct (Nat.ltb_spec BUFFER_SIZE (length (dataBuffer s ++ [x]))) as [L | L].
  - symmetry. apply lastn_one_over.
    rewrite length_app in *. cbn [length] in *. lia.
  - symmetry. now apply lastn_short.
Qed.






(** ** What the peak search reports *)

Lemma in_range_incl (lo hi j : Z) :
  In j (range_incl lo hi) -> (lo <= j <= hi)%Z.
Proof.
  unfold range_incl. rewrite in_map_iff. intros (i & <- & Hi).
  apply in_seq in Hi. lia.
Qed.

Lemma range_incl_in (lo hi j : Z) :
  (lo <= j <= hi)%Z -> In j (range_incl lo hi).
Proof.
  intro H. unfold range_incl. apply in_map_iff.
  exists (Z.to_nat (j - lo)). split; [lia |]. apply in_seq. lia.
Qed.

Lemma peakSearch_fold (magnitudes : list R) (l : list Z) :
  forall p v,
    (fold_left (peakStep magnitudes) l (p, v) = (p, v) \/
     (In (fst (fold_left (peakStep magnitudes) l (p, v))) l /\
      get magnitudes (fst (fold_left (peakStep magnitudes) l (p, v)))
      = Some (snd (fold_left (peakStep magnitudes) l (p, v))) /\
      v < snd (fold_left (peakStep magnitudes) l (p, v)))) /\
    (forall j m, In j l -> get magnitudes j = Some m ->
                 m <= snd (fold_left (peakStep magnitudes) l (p, v))).
Proof.
  induction l as [| i t IH]; intros p v; cbn [fold_left].
  - split; [now left | contradiction].
  - remember (peakStep magnitudes (p, v) i) as a eqn:Ea.
    unfold peakStep in Ea. cbn [snd] in Ea.
    destruct (get magnitudes i) as [m |] eqn:E.
    + destruct (gt m v) eqn:G; subst a.
      * apply gt_true in G. destruct (IH i m) as (Hr & Hall).
        assert (Hv : m <= snd (fold_left (peakStep magnitudes) t (i, m))).
        { destruct Hr as [-> | (_ & _ & Hlt)]; cbn [snd]; lra. }
        split.
        -- right. destruct Hr as [-> | (Hin & Hg & Hlt)]; cbn [fst snd].
           ++ split; [now left |]. split; [exact E | lra].
           ++ split; [now right |]. split; [exact Hg | lra].
        -- intros j m' [<- | Hj] Hm'; [| exact (Hall j m' Hj Hm')].
           rewrite E in Hm'. injection Hm' as <-. exact Hv.
      * apply gt_false in G. destruct (IH p v) as (Hr & Hall).
        assert (Hv : v <= snd (fold_left (peakStep magnitudes) t (p, v))).
        { destruct Hr as [-> | (_ & _ & Hlt)]; cbn [snd]; lra. }
        split.
        -- destruct Hr as [-> | (Hin & Hg & Hlt)]; [now left |].
           right. split; [now right |]. split; assumption.
        -- intros j m' [<- | Hj] Hm'; [| exact (Hall j m' Hj Hm')].
           rewrite E in Hm'. injection Hm' as <-. lra.
    + subst a. destruct (IH p v) as (Hr & Hall). split.
      * destruct Hr as [-> | (Hin & Hg & Hlt)]; [now left |].
        right. split; [now right |]. split; assumption.
      * intros j m' [<- | Hj] Hm'; [| exact (Hall j m' Hj Hm')].
        rewrite E in Hm'. discriminate.
Qed.

(** A reported bin lies in the band and carries the largest magnitude of
    the band. *)
Lemma peakSearch_found (magnitudes : list R) (lo hi : Z) :
  fst (peakSearch magnitudes lo hi) <> (-1)%Z ->
  (lo <= fst (peakSearch magnitudes lo hi) <= hi)%Z /\
  get magnitudes (fst (peakSearch magnitudes lo hi))
  = Some (snd (peakSearch magnitudes lo hi)) /\
  forall j m, (lo <= j <= hi)%Z -> get magnitudes j = Some m ->
              m <= snd (peakSearch magnitudes lo hi).
Proof.
  intro Hp. unfold peakSearch in *.
  destruct (peakSearch_fold magnitudes (range_incl lo hi) (-1)%Z (-1))
    as (Hr & Hall).
  destruct Hr as [E | (Hin & Hg & _)].
  - rewrite E in Hp. now contradiction Hp.
  - split; [now apply in_range_incl |]. split; [exact Hg |].
    intros j m Hj. apply Hall. now apply range_incl_in.
Qed.

(** No bin is reported exactly when no bin of the band holds a magnitude
    above the initial maximum -1. *)
Lemma peakSearch_none (magnitudes : list R) (lo hi : Z) :
  fst (peakSearch magnitudes lo hi) = (-1)%Z <->
  forall j m, (lo <= j <= hi)%Z -> get magnitudes j = Some m -> m <= -1.
Proof.
  unfold peakSearch.
  destruct (peakSearch_fold magnitudes (range_incl lo hi) (-1)%Z (-1))
    as (Hr & Hall).
  split.
  - intros Hp j m Hj Hm.
    destruct Hr as [E | (Hin & Hg & _)].
    + rewrite E in Hall. cbn [snd] in Hall. apply (Hall j); [| exact Hm].
      now apply range_incl_in.
    + rewrite Hp in Hg. discriminate.
  - intro Hnone. destruct Hr as [-> | (Hin & Hg & Hlt)]; [reflexivity |].
    apply in_range_incl in Hin. specialize (Hnone _ _ Hin Hg). lra.
Qed.

(** ** The full-window cycle *)

(** Once the pushed sample fills the window the pass runs the pipeline
    over the window it has just stored. *)
Lemma acceptBranch_processing (s : State) (x : R) :
  (BUFFER_SIZE <= S (length (dataBuffer s)))%nat ->
  exists t,
    acceptBranch s x = processingBranch t /\
    dataBuffer t = dataBuffer (acceptBranch s x) /\
    heartRate t = heartRate s /\
    yDomain t = yDomain s.
Proof.
  intro Hfull. unfold acceptBranch. fields.
  assert (Hpush : length (dataBuffer s ++ [x]) = S (length (dataBuffer s))).
  { rewrite length_app. cbn [length]. lia. }
  destruct (Nat.ltb_spec BUFFER_SIZE (length (dataBuffer s ++ [x]))) as [L | L]; fields.
  - assert (Htl : length (tl (dataBuffer s ++ [x])) = length (dataBuffer s)).
    { destruct (dataBuffer s ++ [x]) as [| y t] eqn:E; cbn [tl length] in *; lia. }
    destruct (Nat.ltb_spec (length (tl (dataBuffer s ++ [x]))) BUFFER_SIZE) as [L2 | L2];
      [lia |].
    eexists. split; [reflexivity |].
    destruct (processingBranch_buffer
                (set_dataBuffer (tl (dataBuffer s ++ [x]))
                   (set_dataBuffer (dataBuffer s ++ [x])
                      (set_lastRedAverage (Some x) s)))) as (-> & _).
    fields. repeat split; reflexivity.
  - destruct (Nat.ltb_spec (length (dataBuffer s ++ [x])) BUFFER_SIZE) as [L2 | L2];
      [lia |].
    eexists. split; [reflexivity |].
    destruct (processingBranch_buffer
                (set_dataBuffer (dataBuffer s ++ [x])
                   (set_lastRedAverage (Some x) s))) as (-> & _).
    fields. repeat split; reflexivity.
Qed.

Lemma processingBranch_heartRate (t : State) :
  let filtered := lowPassFilter (detrendSignal (dataBuffer t)) LOW_PASS_ALPHA in
  let samples := length filtered in
  let peakIndex :=
    fst (peakSearch (calculateMagnitudes filtered)
                    (minIndexOf samples) (maxIndexOf samples)) in
  heartRate (processingBranch t)
  = if (peakIndex =? -1)%Z then heartRate t
    else heartRate t * 0.9 + bpmOf peakIndex samples * 0.1.
Proof.
  unfold processingBranch. fields.
  destruct (_ =? -1)%Z; fields; reflexivity.
Qed.

Lemma processingBranch_display (t : State) :
  let filtered := lowPassFilter (detrendSignal (dataBuffer t)) LOW_PASS_ALPHA in
  yDomain (processingBranch t) = nextYDomain filtered (yDomain t) /\
  chartData (processingBranch t)
  = mapi (fun value index => mkPoint index value) filtered.
Proof.
  unfold processingBranch. fields.
  destruct (_ =? -1)%Z; fields; split; reflexivity.
Qed.


(** ** The display scaler *)

Lemma fold_Rmin_spec (t : list R) :
  forall x, In (fold_left Rmin t x) (x :: t) /\
            forall y, In y (x :: t) -> fold_left Rmin t x <= y.
Proof.
  induction t as [| z t IH]; intro x; cbn [fold_left].
  - split; [now left | intros y [<- | []]; lra].
  - destruct (IH (Rmin x z)) as [Hin Hle]. split.
    + destruct Hin as [E | Hin]; [| now right; right].
      rewrite <- E. unfold Rmin. destruct (Rle_dec x z); [now left | now right; left].
    + intros y Hy.
      assert (Hm : fold_left Rmin t (Rmin x z) <= Rmin x z) by (apply Hle; now left).
      destruct Hy as [<- | [<- | Hy]].
      * pose proof (Rmin_l x z). lra.
      * pose proof (Rmin_r x z). lra.
      * apply Hle. now right.
Qed.

Lemma fold_Rmax_spec (t : list R) :
  forall x, In (fold_left Rmax t x) (x :: t) /\
            forall y, In y (x :: t) -> y <= fold_left Rmax t x.
Proof.
  induction t as [| z t IH]; intro x; cbn [fold_left].
  - split; [now left | intros y [<- | []]; lra].
  - destruct (IH (Rmax x z)) as [Hin Hle]. split.
    + destruct Hin as [E | Hin]; [| now right; right].
      rewrite <- E. unfold Rmax. destruct (Rle_dec x z); [now right; left | now left].
    + intros y Hy.
      assert (Hm : Rmax x z <= fold_left Rmax t (Rmax x z)) by (apply Hle; now left).
      destruct Hy as [<- | [<- | Hy]].
      * pose proof (Rmax_l x z). lra.
      * pose proof (Rmax_r x z). lra.
      * apply Hle. now right.
Qed.



Lemma Math_min_isMin (l : list R) : l <> [] -> Spec.isMin (Math_min l) l.
Proof.
  destruct l as [| x t]; [easy | intros _]. apply fold_Rmin_spec.
Qed.

Lemma Math_max_isMax (l : list R) : l <> [] -> Spec.isMax (Math_max l) l.
Proof.
  destruct l as [| x t]; [easy | intros _]. apply fold_Rmax_spec.
Qed.



(** ** A constant signal through the pipeline *)

Lemma sum_const {A : Type} (c : R) (l : list A) :
  Spec.sum (map (fun _ => c) l) = INR (length l) * c.
Proof. now rewrite map_const, sum_repeat. Qed.

Lemma localMean_constant (c : R) (n i : nat) :
  (i < n)%nat -> Spec.localMean (repeat c n) i = c.
Proof.
  intro Hi. unfold Spec.localMean. rewrite repeat_length.
  change (30 / 2)%Z with 15%Z.
  set (lo := Z.max 0 (Z.of_nat i - 15)).
  set (hi := Z.min (Z.of_nat n - 1) (Z.of_nat i + 15)).
  assert (Hlo : (0 <= lo <= Z.of_nat i)%Z) by (unfold lo; lia).
  assert (Hhi : (Z.of_nat i <= hi < Z.of_nat n)%Z) by (unfold hi; lia).
  rewrite (map_ext_in _ (fun _ => c)).
  - rewrite sum_const. unfold range_incl. rewrite length_map, length_seq.
    rewrite INR_IZR_INZ, Z2Nat.id by lia.
    assert (0 < IZR (hi - lo + 1)) by (apply IZR_lt; lia).
    field. lra.
  - intros j Hj. apply in_range_incl in Hj. apply nth_repeat_lt. lia.
Qed.

Lemma detrendSignal_constant (c : R) (n : nat) :
  (3 <= n)%nat -> detrendSignal (repeat c n) = repeat 0 n.
Proof.
  intro Hn.
  assert (Hlen : (3 <= length (repeat c n))%nat) by now rewrite repeat_length.
  apply (nth_ext _ _ 0 0).
  - now rewrite detrendSignal_length, !repeat_length.
  - intros i Hi. rewrite detrendSignal_length, repeat_length in Hi.
    rewrite detrendSignal_nth by (try exact Hlen; now rewrite repeat_length).
    rewrite localMean_constant by exact Hi.
    rewrite !nth_repeat_lt by exact Hi. lra.
Qed.

Lemma lowPassFilter_repeat (c alpha : R) (n : nat) :
  lowPassFilter (repeat c n) alpha = repeat c n.
Proof.
  rewrite lowPassFilter_recursion. destruct n as [| n]; [reflexivity |].
  cbn [repeat Spec.lowPass]. now rewrite iir_constant.
Qed.

Lemma magnitude_zero (n k : nat) : Spec.magnitude (repeat 0 n) k = 0.
Proof.
  unfold Spec.magnitude, Spec.real, Spec.imag, Spec.bigsum, Spec.windowed.
  rewrite repeat_length.
  rewrite (map_ext _ (fun _ => 0)) by (intro j; rewrite nth_repeat; ring).
  rewrite (map_ext (fun j => _ * sin _) (fun _ => 0))
    by (intro j; rewrite nth_repeat; ring).
  rewrite sum_const.
  replace ((INR (length (seq 0 n)) * 0) ^ 2 + (- (INR (length (seq 0 n)) * 0)) ^ 2)
    with 0 by ring.
  rewrite sqrt_0. unfold Rdiv. ring.
Qed.

Lemma calculateMagnitudes_zero (n : nat) :
  calculateMagnitudes (repeat 0 n) = repeat 0 ((n + 1) / 2).
Proof.
  rewrite calculateMagnitudes_map, repeat_length.
  rewrite (map_ext _ (fun _ => 0)) by (intro k; apply magnitude_zero).
  now rewrite map_const, length_seq.
Qed.

(** ** The peak search *)

Lemma peakSearch_step_flat (magnitudes : list R) (l : list Z) (i : Z) (v : R) :
  (forall j m, In j l -> get magnitudes j = Some m -> m <= v) ->
  fold_left (peakStep magnitudes) l (i, v) = (i, v).
Proof.
  induction l as [| j t IH]; intro H; [reflexivity |].
  cbn [fold_left]. unfold peakStep at 2.
  destruct (get magnitudes j) as [m |] eqn:E.
  - cbn [snd]. assert (Hm : m <= v) by (apply (H j); [now left | exact E]).
    replace (gt m v) with false by (symmetry; apply gt_false; lra).
    apply IH. intros j' m' Hj'. apply H. now right.
  - apply IH. intros j' m' Hj'. apply H. now right.
Qed.

Lemma range_incl_cons (lo hi : Z) :
  (lo <= hi)%Z ->
  range_incl lo hi = lo :: range_incl (lo + 1) hi.
Proof.
  intro H. unfold range_incl.
  replace (Z.to_nat (hi - lo + 1)) with (S (Z.to_nat (hi - (lo + 1) + 1))) by lia.
  cbn [seq map]. f_equal; [lia |].
  rewrite <- seq_shift, map_map. apply map_ext. intro j. lia.
Qed.

(** Over a spectrum of zeros the search reports the lowest bin of the
    band: its magnitude 0 exceeds the initial maximum -1. *)
Lemma peakSearch_zero (n : nat) (lo hi : Z) :
  (0 <= lo <= hi)%Z -> (lo < Z.of_nat n)%Z ->
  peakSearch (repeat 0 n) lo hi = (lo, 0).
Proof.
  intros Hb Hn. unfold peakSearch.
  rewrite range_incl_cons by lia. cbn [fold_left].
  assert (E : get (repeat 0 n) lo = Some 0).
  { unfold get. destruct (Z.ltb_spec lo 0); [lia |].
    apply nth_error_repeat. lia. }
  unfold peakStep at 2. rewrite E. cbn [snd].
  replace (gt 0 (-1)) with true by (symmetry; apply gt_true; lra).
  apply peakSearch_step_flat.
  intros j m _ Hj. unfold get in Hj.
  destruct (j <? 0)%Z; [discriminate |].
  apply nth_error_In, repeat_spec in Hj. lra.
Qed.

Lemma INR_BUFFER_SIZE : INR BUFFER_SIZE = 600.
Proof. rewrite BUFFER_SIZE_value, INR_IZR_INZ. reflexivity. Qed.

Lemma INR_FPS : INR FPS = 30.
Proof. unfold FPS. rewrite INR_IZR_INZ. reflexivity. Qed.

Lemma band_full_window :
  minIndexOf BUFFER_SIZE = 15%Z /\ maxIndexOf BUFFER_SIZE = 67%Z.
Proof.
  unfold minIndexOf, maxIndexOf, Math_floor, Math_ceil, MIN_BPM, MAX_BPM.
  rewrite INR_BUFFER_SIZE, INR_FPS. split.
  - apply Zfloor_eq. lra.
  - apply Zceil_eq. lra.
Qed.

Lemma bpm_lowest_bin : bpmOf 15 BUFFER_SIZE = 45.
Proof. unfold bpmOf. rewrite INR_BUFFER_SIZE, INR_FPS. lra. Qed.

(** A full-window cycle over a constant window moves the rate a tenth of
    the way to 45 BPM. *)
Lemma processingBranch_constant (t : State) (c : R) :
  dataBuffer t = repeat c BUFFER_SIZE ->
  heartRate (processingBranch t) = heartRate t * 0.9 + 4.5.
Proof.
  intro Hb. rewrite processingBranch_heartRate. cbv zeta. rewrite Hb.
  rewrite detrendSignal_constant by (rewrite BUFFER_SIZE_value; lia).
  rewrite lowPassFilter_repeat, repeat_length, calculateMagnitudes_zero.
  destruct band_full_window as [-> ->].
  rewrite peakSearch_zero.
  - cbn [fst Z.eqb]. rewrite bpm_lowest_bin. lra.
  - lia.
  - rewrite BUFFER_SIZE_value. change ((600 + 1) / 2)%nat with 300%nat. lia.
Qed.

(** ** End to end: a flat signal *)

Lemma lastn_repeat (c : R) (n k : nat) :
  Spec.lastn n (repeat c k) = repeat c (Nat.min k n).
Proof.
  unfold Spec.lastn. rewrite repeat_length.
  replace k with ((k - n) + Nat.min k n)%nat at 2 by lia.
  rewrite repeat_app, skipn_app, repeat_length, Nat.sub_diag.
  rewrite skipn_all2 by (rewrite repeat_length; lia). reflexivity.
Qed.

Lemma flatFrame_accepted (s : State) (data : list Z) :
  flatFrame data ->
  lastRedAverage s = None \/ lastRedAverage s = Some 100 ->
  accepted s data.
Proof.
  intros (_ & Ha & Hd) Hl. split.
  - unfold coverageFault, COVERAGE_STD_DEV_THRESHOLD. rewrite Hd. lra.
  - unfold motionFault, MOTION_THRESHOLD. destruct Hl as [-> | ->]; [easy |].
    rewrite Ha. replace (100 - 100) with 0 by lra. rewrite Rabs_R0. lra.
Qed.

Lemma afterFlat_step (n : nat) (s : State) (data : list Z) :
  afterFlat n s -> flatFrame data ->
  afterFlat (S n) (processFrame s (Some data)).
Proof.
  intros (Hb & Hl & Hr) Hflat.
  pose proof (flatFrame_accepted s data Hflat Hl) as Ha.
  destruct Hflat as (_ & Havg & _).
  rewrite processFrame_accept by exact Ha. rewrite Havg.
  assert (Hlen : (length (dataBuffer s) <= BUFFER_SIZE)%nat)
    by (rewrite Hb, repeat_length; lia).
  assert (Hb' : dataBuffer (acceptBranch s 100) = repeat 100 (Nat.min (S n) BUFFER_SIZE)).
  { rewrite acceptBranch_lastn by exact Hlen. rewrite Hb.
    rewrite <- repeat_cons. change (100 :: repeat 100 ?k) with (repeat 100 (S k)).
    rewrite lastn_repeat. f_equal. lia. }
  split; [exact Hb' |]. split.
  - right. now destruct (acceptBranch_buffer s 100) as [_ ->].
  - destruct (Nat.lt_ge_cases (S n) BUFFER_SIZE) as [Hs | Hs].
    + destruct (acceptBranch_calibrating s 100) as (_ & -> & _).
      { rewrite Hb', repeat_length. lia. }
      rewrite Hr. replace (S n - (BUFFER_SIZE - 1))%nat with 0%nat by lia.
      replace (n - (BUFFER_SIZE - 1))%nat with 0%nat by lia. reflexivity.
    + destruct (acceptBranch_processing s 100) as (t & E & Ht & Hh & _).
      { rewrite Hb, repeat_length. lia. }
      rewrite E, (processingBranch_constant t 100).
      * rewrite Hh, Hr.
        replace (S n - (BUFFER_SIZE - 1))%nat with (S (n - (BUFFER_SIZE - 1))) by lia.
        rewrite <- tech_pow_Rmult. lra.
      * rewrite Ht, Hb'. f_equal. lia.
Qed.

Lemma afterFlat_run (frames : list (list Z)) :
  forall n s,
    afterFlat n s -> Forall flatFrame frames ->
    afterFlat (n + length frames) (runFrames s frames).
Proof.
  induction frames as [| data rest IH]; intros n s Hs Hf.
  - cbn [length runFrames fold_left]. now rewrite Nat.add_0_r.
  - inversion Hf as [| ? ? Hd Hrest]; subst.
    change (runFrames s (data :: rest))
      with (runFrames (processFrame s (Some data)) rest).
    cbn [length]. rewrite Nat.add_succ_r, <- Nat.add_succ_l.
    apply IH; [| exact Hrest]. now apply afterFlat_step.
Qed.

Lemma afterFlat_sessionStart : afterFlat 0 sessionStart.
Proof.
  unfold afterFlat, sessionStart, startMonitoring, initialState. fields.
  repeat split; [now left | cbn [Nat.sub pow]; lra].
Qed.

(** C1, as the code has it.  Flat frames keep the rate at exactly 0 while
    the window fills (fewer than 600 frames).  From the 600th frame on
    every pass runs the pipeline over a constant window: the processed
    signal and the spectrum are all zeros, the peak search reports the
    lowest band bin, 45 BPM, and the rate after [n] frames is
    [45 * (1 - 0.9 ^ (n - 599))], that is 4.5 after the 600th frame. *)
Theorem flat_signal_rate (frames : list (list Z)) :
  Forall flatFrame frames ->
  heartRate (runFrames sessionStart frames)
  = 45 * (1 - 0.9 ^ (length frames - (BUFFER_SIZE - 1))) /\
  ((length frames < BUFFER_SIZE)%nat ->
   heartRate (runFrames sessionStart frames) = 0) /\
  (length frames = BUFFER_SIZE ->
   status (runFrames sessionStart frames) = Processing /\
   heartRate (runFrames sessionStart frames) = 4.5).
Proof.
  intro Hf.
  destruct (afterFlat_run frames 0 sessionStart afterFlat_sessionStart Hf)
    as (Hb & Hl & Hr).
  cbn [Nat.add] in *. split; [exact Hr |]. split.
  - intro Hn. rewrite Hr.
    replace (length frames - (BUFFER_SIZE - 1))%nat with 0%nat by lia.
    cbn [pow]. lra.
  - intro Hn. split.
    + destruct frames as [| data rest] using rev_ind.
      { rewrite BUFFER_SIZE_value in Hn. discriminate. }
      clear IHrest. apply Forall_app in Hf. destruct Hf as [Hrest Hdata].
      inversion Hdata as [| ? ? Hd _]; subst.
      unfold runFrames. rewrite fold_left_app. cbn [fold_left].
      fold (runFrames sessionStart rest).
      destruct (afterFlat_run rest 0 sessionStart afterFlat_sessionStart Hrest)
        as (Hb0 & Hl0 & _).
      cbn [Nat.add] in *.
      rewrite processFrame_accept by now apply flatFrame_accepted.
      rewrite length_app in Hn. cbn [length] in Hn.
      destruct (acceptBranch_processing (runFrames sessionStart rest) (redAverage data))
        as (t & -> & _).
      { rewrite Hb0, repeat_length. lia. }
      now destruct (processingBranch_buffer t) as (_ & _ & -> & _).
    + rewrite Hr, Hn, BUFFER_SIZE_value.
      change (600 - (600 - 1))%nat with 1%nat. cbn [pow]. lra.
Qed.

Lemma twoTone_flatFrame : flatFrame (twoToneFrame 98 102).
Proof.
  split; [exact flatFrame_valid | exact flatFrame_extract].
Qed.

Lemma flat_frames (n : nat) : Forall flatFrame (repeat (twoToneFrame 98 102) n).
Proof.
  apply Forall_forall. intros d Hd. apply repeat_spec in Hd. subst d.
  exact twoTone_flatFrame.
Qed.

Lemma flat_signal_rate_witness :
  heartRate (runFrames sessionStart (repeat (twoToneFrame 98 102) BUFFER_SIZE)) = 4.5.
Proof.
  apply (flat_signal_rate (repeat (twoToneFrame 98 102) BUFFER_SIZE)
                          (flat_frames BUFFER_SIZE)).
  apply repeat_length.
Defined.

(** C1, as stated, fails: 600 frames of red average 100 and red deviation
    2 leave a heart rate that is not 0. *)
Lemma flat_signal_rate_not_zero :
  redAverage (twoToneFrame 98 102) = 100 /\
  redStdDev (twoToneFrame 98 102) = 2 /\
  length (repeat (twoToneFrame 98 102) 600) = BUFFER_SIZE /\
  heartRate (runFrames sessionStart (repeat (twoToneFrame 98 102) 600)) <> 0.
Proof.
  destruct flatFrame_extract as [Ha Hd].
  split; [exact Ha |]. split; [exact Hd |]. split; [apply repeat_length |].
  destruct (afterFlat_run (repeat (twoToneFrame 98 102) 600) 0 sessionStart
              afterFlat_sessionStart (flat_frames 600)) as (_ & _ & Hr).
  rewrite Hr, repeat_length, BUFFER_SIZE_value.
  change (0 + 600 - (600 - 1))%nat with 1%nat. cbn [pow]. lra.
Qed.

Lemma magnitude_nonneg (signal : list R) (k : nat) :
  signal <> [] -> 0 <= Spec.magnitude signal k.
Proof.
  intro Hne. unfold Spec.magnitude, Rdiv.
  apply Rmult_le_pos; [apply sqrt_pos |].
  apply Rlt_le, Rinv_0_lt_compat, lt_0_INR.
  destruct signal; [easy | cbn [length]; lia].
Qed.

(** On a full window the band [15 .. 67] lies inside the spectrum and
    every magnitude is at least 0: the search always reports a bin. *)
Lemma full_window_peak_found (signal : list R) :
  length signal = BUFFER_SIZE ->
  fst (peakSearch (calculateMagnitudes signal)
                  (minIndexOf (length signal)) (maxIndexOf (length signal)))
  <> (-1)%Z.
Proof.
  intros Hlen Hp. rewrite Hlen in Hp.
  destruct band_full_window as [Hlo Hhi]. rewrite Hlo, Hhi in Hp.
  rewrite peakSearch_none in Hp.
  assert (Hne : signal <> []).
  { intro E. rewrite E in Hlen. now rewrite BUFFER_SIZE_value in Hlen. }
  specialize (Hp 15%Z (Spec.magnitude signal 15)).
  pose proof (magnitude_nonneg signal 15 Hne).
  assert (Hget : get (calculateMagnitudes signal) 15 = Some (Spec.magnitude signal 15)).
  { unfold get. cbn [Z.ltb Z.compare].
    rewrite calculateMagnitudes_map, Hlen, BUFFER_SIZE_value.
    change ((600 + 1) / 2)%nat with 300%nat.
    rewrite (nth_error_nth' _ 0) by (rewrite length_map, length_seq; cbn; lia).
    reflexivity. }
  specialize (Hp ltac:(lia) Hget). lra.
Qed.

(** ** The states and frames of the scenarios *)

Lemma reachable_sessionStart : reachable sessionStart.
Proof. exact (reach_step initialState (EStart CameraOk) reach_init I). Qed.







Lemma partial_window_has_no_estimate_witness :
  heartRate (processFrame sessionStart (Some (twoToneFrame 98 102))) = 0 /\
  chartData (processFrame sessionStart (Some (twoToneFrame 98 102))) = [] /\
  yDomain (processFrame sessionStart (Some (twoToneFrame 98 102))) = Auto.
Proof.
  apply (partial_window_has_no_estimate
           (processFrame sessionStart (Some (twoToneFrame 98 102)))).
  - exact (reach_step sessionStart (EFrame (Some (twoToneFrame 98 102)))
                      reachable_sessionStart flatFrame_valid).
  - destruct (afterFlat_step 0 _ _ afterFlat_sessionStart twoTone_flatFrame) as (-> & _).
    rewrite repeat_length, BUFFER_SIZE_value. lia.
Defined.

(** * Further properties of the signal helpers *)

Lemma nth_map_inside {A B : Type} (f : A -> B) (l : list A) (i : nat) (da : A) (db : B) :
  (i < length l)%nat -> nth i (map f l) db = f (nth i l da).
Proof.
  intro Hi. rewrite (nth_indep _ db (f da)) by now rewrite length_map.
  apply map_nth.
Qed.

Lemma sum_map_affine {A : Type} (g : A -> R) (a c : R) (l : list A) :
  Spec.sum (map (fun j => a * g j + c) l)
  = a * Spec.sum (map g l) + INR (length l) * c.
Proof.
  induction l as [| x t IH]; [simpl; lra |].
  cbn [map Spec.sum fold_right length] in *. rewrite S_INR.
  unfold Spec.sum in IH. rewrite IH. lra.
Qed.

Lemma localMean_affine (signal : list R) (a c : R) (i : nat) :
  (i < length signal)%nat ->
  Spec.localMean (map (fun v => a * v + c) signal) i
  = a * Spec.localMean signal i + c.
Proof.
  intro Hi. unfold Spec.localMean. rewrite length_map.
  change (30 / 2)%Z with 15%Z.
  set (lo := Z.max 0 (Z.of_nat i - 15)).
  set (hi := Z.min (Z.of_nat (length signal) - 1) (Z.of_nat i + 15)).
  assert (Hlo : (0 <= lo <= Z.of_nat i)%Z) by (unfold lo; lia).
  assert (Hhi : (Z.of_nat i <= hi < Z.of_nat (length signal))%Z) by (unfold hi; lia).
  rewrite (map_ext_in _ (fun j => a * nth (Z.to_nat j) signal 0 + c)).
  - rewrite sum_map_affine. unfold range_incl at 2. rewrite length_map, length_seq.
    rewrite INR_IZR_INZ, Z2Nat.id by lia.
    assert (0 < IZR (hi - lo + 1)) by (apply IZR_lt; lia).
    field. lra.
  - intros j Hj. apply in_range_incl in Hj.
    apply (nth_map_inside (fun v => a * v + c)). lia.
Qed.

(** X1. The detrender removes a constant offset and commutes with a gain:
    on a signal of at least three samples, detrending [a * x[i] + c] gives
    [a] times the detrended [x]. *)
Theorem detrendSignal_affine (signal : list R) (a c : R) :
  (3 <= length signal)%nat ->
  detrendSignal (map (fun v => a * v + c) signal)
  = map (fun v => a * v) (detrendSignal signal).
Proof.
  intro Hlen.
  assert (Hlen' : (3 <= length (map (fun v => (a * v + c)%R) signal))%nat)
    by now rewrite length_map.
  apply (nth_ext _ _ 0 0).
  - now rewrite length_map, !detrendSignal_length, length_map.
  - intros i Hi. rewrite detrendSignal_length, length_map in Hi.
    rewrite detrendSignal_nth by (try exact Hlen'; now rewrite length_map).
    rewrite (nth_map_inside (fun v => a * v) _ i 0 0)
      by now rewrite detrendSignal_length.
    rewrite detrendSignal_nth by assumption.
    rewrite (nth_map_inside (fun v => a * v + c) signal i 0 0 Hi).
    rewrite localMean_affine by exact Hi. ring.
Qed.

Lemma detrendSignal_affine_witness :
  detrendSignal (map (fun v => 2 * v + 7) [3; 1; 4; 1; 5])
  = map (fun v => 2 * v) (detrendSignal [3; 1; 4; 1; 5]).
Proof.
  apply (detrendSignal_affine [3; 1; 4; 1; 5] 2 7). simpl. lia.
Defined.

(** ** The smoothing filter *)

Lemma iir_length (alpha prev : R) (xs : list R) :
  length (Spec.iir alpha prev xs) = length xs.
Proof.
  revert prev; induction xs as [| x t IH]; intro prev; [reflexivity |].
  cbn [Spec.iir length]. now rewrite IH.
Qed.

Lemma lowPassFilter_same_length (signal : list R) (alpha : R) :
  length (lowPassFilter signal alpha) = length signal.
Proof.
  rewrite lowPassFilter_recursion. destruct signal as [| x t]; [reflexivity |].
  cbn [Spec.lowPass length]. now rewrite iir_length.
Qed.

Lemma detrendSignal_same_length (signal : list R) :
  length (detrendSignal signal) = length signal.
Proof.
  unfold detrendSignal.
  destruct (Nat.ltb_spec (length signal) 3); [reflexivity | apply mapi_length].
Qed.

(** X2. The processed signal, detrended and then filtered, has one value
    for each sample of the window, whatever the length of the window. *)
Theorem processed_signal_length (signal : list R) (alpha : R) :
  length (lowPassFilter (detrendSignal signal) alpha) = length signal.
Proof.
  now rewrite lowPassFilter_same_length, detrendSignal_same_length.
Qed.

Lemma iir_between (alpha lo hi : R) (xs : list R) :
  0 <= alpha <= 1 ->
  forall prev,
    lo <= prev <= hi ->
    Forall (fun v => lo <= v <= hi) xs ->
    Forall (fun v => lo <= v <= hi) (Spec.iir alpha prev xs).
Proof.
  intro Ha. induction xs as [| x t IH]; intros prev Hp Hx; [constructor |].
  inversion Hx as [| ? ? Hx0 Ht]; subst.
  assert (Hy : lo <= alpha * x + (1 - alpha) * prev <= hi).
  { split.
    - replace lo with (alpha * lo + (1 - alpha) * lo) by ring.
      apply Rplus_le_compat; apply Rmult_le_compat_l; lra.
    - replace hi with (alpha * hi + (1 - alpha) * hi) by ring.
      apply Rplus_le_compat; apply Rmult_le_compat_l; lra. }
  cbn [Spec.iir]. constructor; [exact Hy |]. now apply IH.
Qed.

(** X3. With a smoothing factor between 0 and 1 the filter never leaves
    the range of its input: bounds on the input are bounds on the
    output. *)
Theorem lowPassFilter_between (signal : list R) (alpha lo hi : R) :
  0 <= alpha <= 1 ->
  Forall (fun v => lo <= v <= hi) signal ->
  Forall (fun v => lo <= v <= hi) (lowPassFilter signal alpha).
Proof.
  intros Ha Hx. rewrite lowPassFilter_recursion.
  destruct signal as [| x t]; [constructor |].
  inversion Hx as [| ? ? Hx0 Ht]; subst.
  cbn [Spec.lowPass]. constructor; [exact Hx0 |].
  now apply iir_between.
Qed.

Lemma lowPassFilter_between_witness :
  Forall (fun v => 0 <= v <= 255) (lowPassFilter [0; 255; 100] LOW_PASS_ALPHA).
Proof.
  apply (lowPassFilter_between [0; 255; 100] LOW_PASS_ALPHA 0 255).
  - unfold LOW_PASS_ALPHA. lra.
  - repeat (constructor; [lra |]). constructor.
Defined.

Lemma iir_firstn (alpha : R) (k : nat) :
  forall prev xs,
    Spec.iir alpha prev (firstn k xs) = firstn k (Spec.iir alpha prev xs).
Proof.
  induction k as [| k IH]; intros prev xs; [reflexivity |].
  destruct xs as [| x t]; [reflexivity |].
  cbn [firstn Spec.iir]. now rewrite IH.
Qed.

(** X4. The filter is causal: the output for the first [k] samples does
    not depend on the samples that follow. *)
Theorem lowPassFilter_causal (signal : list R) (alpha : R) (k : nat) :
  lowPassFilter (firstn k signal) alpha = firstn k (lowPassFilter signal alpha).
Proof.
  rewrite !lowPassFilter_recursion.
  destruct k as [| k]; [reflexivity |].
  destruct signal as [| x t]; [reflexivity |].
  cbn [firstn Spec.lowPass]. now rewrite iir_firstn.
Qed.

Lemma iir_pass (prev : R) (xs : list R) : Spec.iir 1 prev xs = xs.
Proof.
  revert prev; induction xs as [| x t IH]; intro prev; [reflexivity |].
  cbn [Spec.iir]. rewrite IH. f_equal. ring.
Qed.

Lemma iir_hold (prev : R) (xs : list R) :
  Spec.iir 0 prev xs = repeat prev (length xs).
Proof.
  revert prev; induction xs as [| x t IH]; intro prev; [reflexivity |].
  cbn [Spec.iir length repeat].
  replace (0 * x + (1 - 0) * prev) with prev by ring.
  now rewrite IH.
Qed.

(** X5. The two ends of the smoothing factor: with [alpha = 1] the filter
    returns its input, with [alpha = 0] it holds the first sample for the
    whole length. *)
Theorem lowPassFilter_extremes (signal : list R) :
  lowPassFilter signal 1 = signal /\
  lowPassFilter signal 0 = repeat (nth 0 signal 0) (length signal).
Proof.
  rewrite !lowPassFilter_recursion. destruct signal as [| x t].
  - split; reflexivity.
  - cbn [Spec.lowPass length repeat nth]. rewrite iir_pass, iir_hold.
    split; reflexivity.
Qed.

(** ** The spectral estimator *)

Lemma half_up (N : nat) :
  ((N + 1) / 2 = N / 2 + N mod 2)%nat.
Proof.
  pose proof (Nat.div_mod_eq (N + 1) 2).
  pose proof (Nat.div_mod_eq N 2).
  pose proof (Nat.mod_upper_bound (N + 1) 2).
  pose proof (Nat.mod_upper_bound N 2). lia.
Qed.

(** X6. The spectrum has one value for every integer [k] with
    [k < N / 2]: [N / 2] values for an even [N] and one more for an odd
    [N]; the empty signal has the empty spectrum; and for two samples or
    more value [k] is the magnitude of the windowed transform at bin
    [k]. *)
Theorem calculateMagnitudes_bins (signal : list R) :
  length (calculateMagnitudes signal)
  = (length signal / 2 + length signal mod 2)%nat /\
  (signal = [] -> calculateMagnitudes signal = []) /\
  ((2 <= length signal)%nat ->
   forall k, (k < length (calculateMagnitudes signal))%nat ->
     nth k (calculateMagnitudes signal) 0 = Spec.magnitude signal k).
Proof.
  split; [| split].
  - now rewrite calculateMagnitudes_length, half_up.
  - intros ->. rewrite calculateMagnitudes_map. reflexivity.
  - intros _ k Hk. rewrite calculateMagnitudes_length in Hk.
    now apply calculateMagnitudes_nth.
Qed.

Lemma calculateMagnitudes_bins_witness :
  nth 1 (calculateMagnitudes [1; 2; 3; 4]) 0 = Spec.magnitude [1; 2; 3; 4] 1.
Proof.
  apply (calculateMagnitudes_bins [1; 2; 3; 4]).
  - simpl. lia.
  - rewrite calculateMagnitudes_length. simpl. lia.
Defined.

(** X7. No magnitude is negative. *)
Theorem calculateMagnitudes_nonneg (signal : list R) :
  (2 <= length signal)%nat ->
  Forall (fun m => 0 <= m) (calculateMagnitudes signal).
Proof.
  intro Hlen. rewrite calculateMagnitudes_map. apply Forall_forall.
  intros m Hm. apply in_map_iff in Hm. destruct Hm as (k & <- & _).
  apply magnitude_nonneg. intros ->. cbn [length] in Hlen. lia.
Qed.

Lemma calculateMagnitudes_nonneg_witness :
  Forall (fun m => 0 <= m) (calculateMagnitudes [1; -2; 3; -4]).
Proof.
  apply (calculateMagnitudes_nonneg [1; -2; 3; -4]). simpl. lia.
Defined.

Lemma sum_map_scale {A : Type} (g : A -> R) (c : R) (l : list A) :
  Spec.sum (map (fun j => c * g j) l) = c * Spec.sum (map g l).
Proof.
  induction l as [| x t IH]; [simpl; lra |].
  cbn [map Spec.sum fold_right] in *. unfold Spec.sum in IH. rewrite IH. lra.
Qed.

Lemma nth_map_scale (c : R) (l : list R) (n : nat) :
  nth n (map (Rmult c) l) 0 = c * nth n l 0.
Proof.
  transitivity (nth n (map (Rmult c) l) (c * 0)).
  - f_equal. ring.
  - apply map_nth.
Qed.

Lemma magnitude_scale (signal : list R) (c : R) (k : nat) :
  Spec.magnitude (map (Rmult c) signal) k = Rabs c * Spec.magnitude signal k.
Proof.
  unfold Spec.magnitude, Spec.real, Spec.imag, Spec.bigsum, Spec.windowed.
  rewrite length_map.
  rewrite (map_ext
             (fun n => nth n (map (Rmult c) signal) 0 * 0.5
                       * (1 - cos (2 * PI * INR n / (INR (length signal) - 1)))
                       * cos (2 * PI * INR k * INR n / INR (length signal)))
             (fun n => c * (nth n signal 0 * 0.5
                            * (1 - cos (2 * PI * INR n / (INR (length signal) - 1)))
                            * cos (2 * PI * INR k * INR n / INR (length signal)))))
    by (intro n; rewrite nth_map_scale; ring).
  rewrite (map_ext
             (fun n => nth n (map (Rmult c) signal) 0 * 0.5
                       * (1 - cos (2 * PI * INR n / (INR (length signal) - 1)))
                       * sin (2 * PI * INR k * INR n / INR (length signal)))
             (fun n => c * (nth n signal 0 * 0.5
                            * (1 - cos (2 * PI * INR n / (INR (length signal) - 1)))
                            * sin (2 * PI * INR k * INR n / INR (length signal)))))
    by (intro n; rewrite nth_map_scale; ring).
  rewrite !sum_map_scale.
  set (re := Spec.sum (map (fun n => _ * cos _) _)).
  set (im := Spec.sum (map (fun n => _ * sin _) _)).
  replace ((c * re) ^ 2 + (- (c * im)) ^ 2)
    with (Rsqr c * (re ^ 2 + (- im) ^ 2)) by (unfold Rsqr; ring).
  rewrite sqrt_mult.
  - rewrite sqrt_Rsqr_abs. unfold Rdiv. ring.
  - apply Rle_0_sqr.
  - apply Rplus_le_le_0_compat; apply pow2_ge_0.
Qed.

(** X8. The spectrum scales with the signal: a gain [c] on every sample
    multiplies every magnitude by [|c|]. *)
Theorem calculateMagnitudes_scale (signal : list R) (c : R) :
  (2 <= length signal)%nat ->
  calculateMagnitudes (map (Rmult c) signal)
  = map (Rmult (Rabs c)) (calculateMagnitudes signal).
Proof.
  intros _. rewrite !calculateMagnitudes_map, length_map, map_map.
  apply map_ext. intro k. apply magnitude_scale.
Qed.

Lemma calculateMagnitudes_scale_witness :
  calculateMagnitudes (map (Rmult (-3)) [1; 2; 3; 4])
  = map (Rmult (Rabs (-3))) (calculateMagnitudes [1; 2; 3; 4]).
Proof.
  apply (calculateMagnitudes_scale [1; 2; 3; 4] (-3)). simpl. lia.
Defined.

Lemma windowed_first (signal : list R) : Spec.windowed signal 0 = 0.
Proof.
  unfold Spec.windowed. cbn [INR].
  replace (2 * PI * 0 / (INR (length signal) - 1)) with 0
    by (unfold Rdiv; ring).
  rewrite cos_0. ring.
Qed.

Lemma windowed_last (signal : list R) :
  (2 <= length signal)%nat ->
  Spec.windowed signal (length signal - 1) = 0.
Proof.
  intro Hlen. unfold Spec.windowed.
  rewrite minus_INR by lia. cbn [INR].
  assert (H2 : 2 <= INR (length signal)).
  { change 2 with (INR 2). apply le_INR. exact Hlen. }
  replace (2 * PI * (INR (length signal) - 1) / (INR (length signal) - 1))
    with (2 * PI) by (field; lra).
  rewrite cos_2PI. ring.
Qed.

Lemma magnitude_inner (x y : list R) (k : nat) :
  length x = length y ->
  (2 <= length x)%nat ->
  (forall i, (0 < i < length x - 1)%nat -> nth i x 0 = nth i y 0) ->
  Spec.magnitude x k = Spec.magnitude y k.
Proof.
  intros Hlen H2 Hin.
  assert (W : forall n, (n < length x)%nat ->
                        Spec.windowed x n = Spec.windowed y n).
  { intros n Hn. destruct (Nat.eq_dec n 0) as [-> | H0].
    - now rewrite !windowed_first.
    - destruct (Nat.eq_dec n (length x - 1)) as [E | E].
      + rewrite E at 1. rewrite windowed_last by exact H2.
        rewrite E, Hlen. rewrite windowed_last by (rewrite <- Hlen; exact H2).
        reflexivity.
      + unfold Spec.windowed. rewrite Hin by lia. now rewrite Hlen. }
  unfold Spec.magnitude, Spec.real, Spec.imag, Spec.bigsum. rewrite <- Hlen.
  rewrite (map_ext_in
             (fun n => Spec.windowed x n * cos (2 * PI * INR k * INR n / INR (length x)))
             (fun n => Spec.windowed y n * cos (2 * PI * INR k * INR n / INR (length x))))
    by (intros n Hn; apply in_seq in Hn; rewrite W by lia; reflexivity).
  rewrite (map_ext_in
             (fun n => Spec.windowed x n * sin (2 * PI * INR k * INR n / INR (length x)))
             (fun n => Spec.windowed y n * sin (2 * PI * INR k * INR n / INR (length x))))
    by (intros n Hn; apply in_seq in Hn; rewrite W by lia; reflexivity).
  reflexivity.
Qed.

(** X9. The Hanning window is zero at both ends, so the spectrum does not
    depend on the first and the last sample: two signals of the same
    length that agree on every inner sample have the same spectrum. *)
Theorem calculateMagnitudes_ignores_ends (x y : list R) :
  length x = length y ->
  (2 <= length x)%nat ->
  (forall i, (0 < i < length x - 1)%nat -> nth i x 0 = nth i y 0) ->
  calculateMagnitudes x = calculateMagnitudes y.
Proof.
  intros Hlen H2 Hin. rewrite !calculateMagnitudes_map, <- Hlen.
  apply map_ext. intro k. now apply magnitude_inner.
Qed.

Lemma calculateMagnitudes_ignores_ends_witness :
  calculateMagnitudes [9; 2; 3; -7] = calculateMagnitudes [0; 2; 3; 0].
Proof.
  apply (calculateMagnitudes_ignores_ends [9; 2; 3; -7] [0; 2; 3; 0]).
  - reflexivity.
  - simpl. lia.
  - intros i Hi. cbn [length] in Hi.
    destruct i as [| [| [| i]]]; try lia; reflexivity.
Defined.

(** ** The peak search *)

Lemma range_incl_empty (lo hi : Z) : (hi < lo)%Z -> range_incl lo hi = [].
Proof.
  intro H. unfold range_incl.
  now replace (Z.to_nat (hi - lo + 1)) with 0%nat by lia.
Qed.

Lemma peakSearch_first (magnitudes : list R) (hi : Z) (n : nat) :
  forall lo p v,
    Z.to_nat (hi - lo + 1) = n ->
    fold_left (peakStep magnitudes) (range_incl lo hi) (p, v) = (p, v) \/
    ((lo <= fst (fold_left (peakStep magnitudes) (range_incl lo hi) (p, v)) <= hi)%Z /\
     v < snd (fold_left (peakStep magnitudes) (range_incl lo hi) (p, v)) /\
     forall j m,
       (lo <= j < fst (fold_left (peakStep magnitudes) (range_incl lo hi) (p, v)))%Z ->
       get magnitudes j = Some m ->
       m < snd (fold_left (peakStep magnitudes) (range_incl lo hi) (p, v))).
Proof.
  induction n as [| n IH]; intros lo p v Hn.
  - left. rewrite range_incl_empty by lia. reflexivity.
  - assert (Hle : (lo <= hi)%Z) by lia.
    rewrite range_incl_cons by exact Hle. cbn [fold_left].
    remember (peakStep magnitudes (p, v) lo) as a eqn:Ea.
    unfold peakStep in Ea. cbn [snd] in Ea.
    assert (Hn' : Z.to_nat (hi - (lo + 1) + 1) = n) by lia.
    destruct (get magnitudes lo) as [m0 |] eqn:E.
    + destruct (gt m0 v) eqn:G; subst a.
      * apply gt_true in G. right.
        destruct (IH (lo + 1)%Z lo m0 Hn') as [-> | (Hband & Hlt & Hfirst)];
          cbn [fst snd].
        -- split; [lia |]. split; [lra |]. intros j m Hj. lia.
        -- split; [lia |]. split; [lra |]. intros j m Hj Hm.
           destruct (Z.eq_dec j lo) as [-> | Hne].
           ++ rewrite E in Hm. injection Hm as <-. exact Hlt.
           ++ apply (Hfirst j); [lia | exact Hm].
      * apply gt_false in G.
        destruct (IH (lo + 1)%Z p v Hn') as [-> | (Hband & Hlt & Hfirst)];
          [now left | right].
        split; [lia |]. split; [exact Hlt |]. intros j m Hj Hm.
        destruct (Z.eq_dec j lo) as [-> | Hne].
        -- rewrite E in Hm. injection Hm as <-. lra.
        -- apply (Hfirst j); [lia | exact Hm].
    + subst a.
      destruct (IH (lo + 1)%Z p v Hn') as [-> | (Hband & Hlt & Hfirst)];
        [now left | right].
      split; [lia |]. split; [exact Hlt |]. intros j m Hj Hm.
      destruct (Z.eq_dec j lo) as [-> | Hne].
      * rewrite E in Hm. discriminate.
      * apply (Hfirst j); [lia | exact Hm].
Qed.

(** X10. A reported bin lies in the band, holds the largest magnitude of
    the band, and is the lowest bin that does: every band bin below it has
    a strictly smaller magnitude (ties go to the lowest index). *)
Theorem peakSearch_lowest_maximum (magnitudes : list R) (lo hi : Z) :
  fst (peakSearch magnitudes lo hi) <> (-1)%Z ->
  (lo <= fst (peakSearch magnitudes lo hi) <= hi)%Z /\
  get magnitudes (fst (peakSearch magnitudes lo hi))
  = Some (snd (peakSearch magnitudes lo hi)) /\
  (forall j m, (lo <= j <= hi)%Z -> get magnitudes j = Some m ->
               m <= snd (peakSearch magnitudes lo hi)) /\
  (forall j m, (lo <= j < fst (peakSearch magnitudes lo hi))%Z ->
               get magnitudes j = Some m ->
               m < snd (peakSearch magnitudes lo hi)).
Proof.
  intro Hp. destruct (peakSearch_found magnitudes lo hi Hp) as (Hband & Hget & Hmax).
  split; [exact Hband |]. split; [exact Hget |]. split; [exact Hmax |].
  unfold peakSearch in *.
  destruct (peakSearch_first magnitudes hi (Z.to_nat (hi - lo + 1)) lo (-1)%Z (-1) eq_refl)
    as [E | (_ & _ & Hfirst)].
  - rewrite E in Hp. now contradiction Hp.
  - exact Hfirst.
Qed.

Lemma peakSearch_lowest_maximum_witness :
  Z.le 1 (fst (peakSearch [0; 5; 2; 5; 1] 1 3)) /\
  Z.le (fst (peakSearch [0; 5; 2; 5; 1] 1 3)) 3.
Proof.
  assert (E : peakSearch [0; 5; 2; 5; 1] 1 3 = (1%Z, 5)).
  { unfold peakSearch.
    rewrite (range_incl_cons 1 3) by lia.
    rewrite (range_incl_cons (1 + 1) 3) by lia.
    rewrite (range_incl_cons (1 + 1 + 1) 3) by lia.
    rewrite range_incl_empty by lia.
    cbn [fold_left]. unfold peakStep.
    change (get [0; 5; 2; 5; 1] 1) with (Some 5).
    change (get [0; 5; 2; 5; 1] (1 + 1)) with (Some 2).
    change (get [0; 5; 2; 5; 1] (1 + 1 + 1)) with (Some 5).
    cbn [snd].
    replace (gt 5 (-1)) with true by (symmetry; apply gt_true; lra).
    cbn [snd].
    replace (gt 2 5) with false by (symmetry; apply gt_false; lra).
    cbn [snd].
    replace (gt 5 5) with false by (symmetry; apply gt_false; lra).
    reflexivity. }
  apply (peakSearch_lowest_maximum [0; 5; 2; 5; 1] 1 3).
  rewrite E. discriminate.
Defined.

(** X11. The search reports no bin (the index stays [-1]) exactly when no
    bin of the band holds a magnitude above [-1]; so it reports none for
    an empty band and for a band that lies beyond the spectrum, and it
    reports a bin as soon as one band bin holds a magnitude that is not
    negative. *)
Theorem peakSearch_reports_none (magnitudes : list R) (lo hi : Z) :
  (fst (peakSearch magnitudes lo hi) = (-1)%Z <->
   forall j m, (lo <= j <= hi)%Z -> get magnitudes j = Some m -> m <= -1) /\
  ((hi < lo)%Z -> peakSearch magnitudes lo hi = ((-1)%Z, -1)) /\
  ((Z.of_nat (length magnitudes) <= lo)%Z ->
   peakSearch magnitudes lo hi = ((-1)%Z, -1)) /\
  (forall j m, (lo <= j <= hi)%Z -> get magnitudes j = Some m -> 0 <= m ->
               fst (peakSearch magnitudes lo hi) <> (-1)%Z).
Proof.
  split; [apply peakSearch_none |]. split; [| split].
  - intro H. unfold peakSearch. now rewrite range_incl_empty.
  - intro H. unfold peakSearch.
    destruct (peakSearch_fold magnitudes (range_incl lo hi) (-1)%Z (-1))
      as ([E | (Hin & Hg & _)] & _); [exact E |].
    exfalso. apply in_range_incl in Hin. revert Hin Hg.
    generalize (fold_left (peakStep magnitudes) (range_incl lo hi) ((-1)%Z, -1)).
    intros [p v] Hin Hg. cbn [fst snd] in *. unfold get in Hg.
    destruct (Z.ltb_spec p 0); [discriminate |].
    assert (Hnone : nth_error magnitudes (Z.to_nat p) = None)
      by (apply nth_error_None; lia).
    rewrite Hnone in Hg. discriminate.
  - intros j m Hj Hm H0 Hp. rewrite peakSearch_none in Hp.
    specialize (Hp j m Hj Hm). lra.
Qed.

Lemma peakSearch_reports_none_witness :
  peakSearch [1; 2; 3] 5 9 = ((-1)%Z, -1) /\
  peakSearch [1; 2; 3] 2 1 = ((-1)%Z, -1).
Proof.
  split.
  - apply (proj1 (proj2 (proj2 (peakSearch_reports_none [1; 2; 3] 5 9)))).
    cbn [length Z.of_nat]. lia.
  - apply (proj1 (proj2 (peakSearch_reports_none [1; 2; 3] 2 1))). lia.
Defined.

Lemma bpm_full_window (k : Z) : bpmOf k BUFFER_SIZE = 3 * IZR k.
Proof. unfold bpmOf. rewrite INR_BUFFER_SIZE, INR_FPS. field. Qed.

(** X12. On a window of [BUFFER_SIZE] samples the searched band is the
    bins 15 to 67, a bin is always reported, and the instantaneous
    estimate, three times the bin, lies between 45 and 201 BPM: the upper
    bin is rounded up and exceeds [MAX_BPM] by one. *)
Theorem full_window_estimate (signal : list R) :
  length signal = BUFFER_SIZE ->
  minIndexOf (length signal) = 15%Z /\
  maxIndexOf (length signal) = 67%Z /\
  (15 <= fst (peakSearch (calculateMagnitudes signal)
                         (minIndexOf (length signal))
                         (maxIndexOf (length signal))) <= 67)%Z /\
  45 <= bpmOf (fst (peakSearch (calculateMagnitudes signal)
                               (minIndexOf (length signal))
                               (maxIndexOf (length signal))))
              (length signal) <= MAX_BPM + 1.
Proof.
  intro Hlen.
  pose proof (full_window_peak_found signal Hlen) as Hp.
  destruct (peakSearch_found _ _ _ Hp) as (Hband & _).
  rewrite Hlen in *. destruct band_full_window as [Hlo Hhi].
  rewrite Hlo, Hhi in *.
  split; [reflexivity |]. split; [reflexivity |]. split; [exact Hband |].
  rewrite bpm_full_window. unfold MAX_BPM.
  destruct Hband as [H1 H2]. apply IZR_le in H1, H2. lra.
Qed.

Lemma full_window_estimate_witness :
  45 <= bpmOf (fst (peakSearch (calculateMagnitudes (repeat 0 BUFFER_SIZE))
                               (minIndexOf (length (repeat 0 BUFFER_SIZE)))
                               (maxIndexOf (length (repeat 0 BUFFER_SIZE)))))
              (length (repeat 0 BUFFER_SIZE)) <= MAX_BPM + 1.
Proof.
  apply (full_window_estimate (repeat 0 BUFFER_SIZE)). apply repeat_length.
Defined.

(** * Further properties of the frame pass *)

(** ** The reflectance extractor *)

Lemma fold_left_plus_sum {A : Type} (g : A -> R) (l : list A) (a : R) :
  fold_left (fun acc d => acc + g d) l a = a + Spec.sum (map g l).
Proof.
  revert a; induction l as [| x t IH]; intro a; simpl; [lra |].
  rewrite IH. unfold Spec.sum. lra.
Qed.

Lemma redChannel_quads (n : nat) :
  forall data,
    length data = (4 * n)%nat ->
    length (redChannel data) = n /\
    (forall d, In d (redChannel data) -> In d data).
Proof.
  induction n as [| n IH]; intros data Hlen.
  - destruct data; [| discriminate]. split; [reflexivity | intros d []].
  - destruct data as [| r [| g [| b [| a rest]]]]; cbn [length] in Hlen; try lia.
    destruct (IH rest) as [Hl Hin]; [lia |].
    cbn [redChannel]. split.
    + cbn [length]. now rewrite Hl.
    + intros d [<- | Hd]; [now left |]. do 4 right. now apply Hin.
Qed.

Lemma sum_between {A : Type} (g : A -> R) (lo hi : R) (l : list A) :
  (forall d, In d l -> lo <= g d <= hi) ->
  INR (length l) * lo <= Spec.sum (map g l) <= INR (length l) * hi.
Proof.
  induction l as [| x t IH]; intro H; [simpl; lra |].
  cbn [map length]. rewrite S_INR.
  change (Spec.sum (g x :: map g t)) with (g x + Spec.sum (map g t)).
  assert (lo <= g x <= hi) by (apply H; now left).
  destruct IH as [IH1 IH2]; [intros d Hd; apply H; now right |]. lra.
Qed.

Lemma sum_square_deviation {A : Type} (g : A -> R) (mu : R) (l : list A) :
  Spec.sum (map (fun d => (g d - mu) * (g d - mu)) l)
  = Spec.sum (map (fun d => g d * g d) l)
    - 2 * mu * Spec.sum (map g l) + INR (length l) * (mu * mu).
Proof.
  induction l as [| x t IH]; [simpl; lra |].
  cbn [map length]. rewrite S_INR.
  change (Spec.sum (?a :: ?b)) with (a + Spec.sum b).
  rewrite IH. change (Spec.sum (?a :: ?b)) with (a + Spec.sum b). ring.
Qed.

Lemma sum_nonneg {A : Type} (g : A -> R) (l : list A) :
  (forall d, In d l -> 0 <= g d) -> 0 <= Spec.sum (map g l).
Proof.
  induction l as [| x t IH]; intro H; [simpl; lra |].
  cbn [map]. change (Spec.sum (?a :: ?b)) with (a + Spec.sum b).
  assert (0 <= g x) by (apply H; now left).
  assert (0 <= Spec.sum (map g t)) by (apply IH; intros d Hd; apply H; now right).
  lra.
Qed.

Lemma sum_squares_zero {A : Type} (g : A -> R) (l : list A) :
  Spec.sum (map (fun d => g d * g d) l) = 0 ->
  forall d, In d l -> g d = 0.
Proof.
  induction l as [| x t IH]; intros H d Hd; [contradiction |].
  cbn [map] in H. change (Spec.sum (?a :: ?b)) with (a + Spec.sum b) in H.
  assert (H0 : 0 <= Spec.sum (map (fun d => g d * g d) t)).
  { apply sum_nonneg. intros y _.
    pose proof (Rle_0_sqr (g y)) as S. unfold Rsqr in S. exact S. }
  pose proof (Rle_0_sqr (g x)) as Sx. unfold Rsqr in Sx.
  destruct Hd as [<- | Hd].
  - assert (g x * g x = 0) by lra. now apply Rsqr_0_uniq.
  - apply IH; [lra | exact Hd].
Qed.

Lemma div_le_upper (a b n : R) : 0 < n -> a <= b * n -> a / n <= b.
Proof.
  intros Hn H. apply Rmult_le_reg_r with n; [exact Hn |].
  replace (a / n * n) with a by (field; lra). exact H.
Qed.

Lemma div_le_lower (a b n : R) : 0 < n -> b * n <= a -> b <= a / n.
Proof.
  intros Hn H. apply Rmult_le_reg_r with n; [exact Hn |].
  replace (a / n * n) with a by (field; lra). exact H.
Qed.

Section Extractor.

Variable data : list Z.
Variable n : nat.
Hypothesis quads : length data = (4 * n)%nat.
Hypothesis some_pixels : (0 < n)%nat.
Hypothesis bytes : Forall (fun d => (0 <= d <= 255)%Z) data.

Lemma extractor_numPixels : numPixels data = INR n.
Proof.
  unfold numPixels. rewrite quads, mult_INR.
  replace (INR 4) with 4 by (simpl; lra). field.
Qed.

Lemma extractor_red_bytes (d : Z) :
  In d (redChannel data) -> 0 <= IZR d <= 255.
Proof.
  intro Hd. apply (proj2 (redChannel_quads n data quads)) in Hd.
  rewrite Forall_forall in bytes. destruct (bytes d Hd) as [H1 H2].
  apply IZR_le in H1, H2. lra.
Qed.

Lemma extractor_redAverage :
  redAverage data = Spec.sum (map IZR (redChannel data)) / INR n.
Proof.
  unfold redAverage. now rewrite extractor_numPixels, fold_left_plus_sum, Rplus_0_l.
Qed.

Lemma extractor_variance :
  redStdDev data
  = sqrt (Spec.sum (map (fun d => (IZR d - redAverage data) * (IZR d - redAverage data))
                        (redChannel data))
          / INR n).
Proof.
  unfold redStdDev.
  rewrite extractor_numPixels.
  rewrite (fold_left_plus_sum
             (fun d => (IZR d - redAverage data) * (IZR d - redAverage data))).
  now rewrite Rplus_0_l.
Qed.

Lemma extractor_average_range : 0 <= redAverage data <= 255.
Proof.
  rewrite extractor_redAverage.
  pose proof (sum_between IZR 0 255 (redChannel data) extractor_red_bytes) as B.
  rewrite (proj1 (redChannel_quads n data quads)) in B.
  assert (Hn : 0 < INR n) by now apply lt_0_INR.
  split.
  - apply div_le_lower; [exact Hn | lra].
  - apply div_le_upper; [exact Hn | lra].
Qed.

Lemma extractor_variance_bound :
  0 <= Spec.sum (map (fun d => (IZR d - redAverage data) * (IZR d - redAverage data))
                     (redChannel data))
       / INR n
  <= 127.5 * 127.5.
Proof.
  assert (Hn : 0 < INR n) by now apply lt_0_INR.
  pose proof extractor_redAverage as Hmu.
  set (mu := redAverage data) in *.
  set (S1 := Spec.sum (map IZR (redChannel data))) in *.
  assert (HS1 : S1 = INR n * mu).
  { rewrite Hmu. field. lra. }
  rewrite (sum_square_deviation IZR mu).
  rewrite (proj1 (redChannel_quads n data quads)). fold S1.
  set (S2 := Spec.sum (map (fun d => IZR d * IZR d) (redChannel data))).
  assert (HS2 : S2 <= 255 * S1).
  { pose proof (sum_between (fun d => IZR d * (255 - IZR d)) 0
                            (255 * 255) (redChannel data)) as B.
    assert (E : Spec.sum (map (fun d => IZR d * (255 - IZR d)) (redChannel data))
                = 255 * S1 - S2).
    { unfold S1, S2. clear. induction (redChannel data) as [| x t IH]; [simpl; lra |].
      cbn [map]. change (Spec.sum (?a :: ?b)) with (a + Spec.sum b).
      rewrite IH. change (Spec.sum (?a :: ?b)) with (a + Spec.sum b). ring. }
    destruct B as [B1 _].
    - intros d Hd. pose proof (extractor_red_bytes d Hd). split; nra.
    - rewrite E in B1. nra. }
  assert (HS2' : INR n * (mu * mu) <= S2).
  { assert (B1 : 0 <= Spec.sum (map (fun d => (IZR d - mu) * (IZR d - mu))
                                       (redChannel data))).
    { apply sum_nonneg. intros d _.
      pose proof (Rle_0_sqr (IZR d - mu)) as Sq. unfold Rsqr in Sq. exact Sq. }
    rewrite (sum_square_deviation IZR mu) in B1.
    rewrite (proj1 (redChannel_quads n data quads)) in B1.
    fold S1 S2 in B1. rewrite HS1 in B1. nra. }
  rewrite HS1.
  replace ((S2 - 2 * mu * (INR n * mu) + INR n * (mu * mu)) / INR n)
    with (S2 / INR n - mu * mu) by (field; lra).
  assert (Hq : S2 / INR n <= 255 * mu).
  { apply div_le_upper; [exact Hn |]. rewrite HS1 in HS2. nra. }
  assert (Hq' : mu * mu <= S2 / INR n).
  { apply div_le_lower; [exact Hn |]. nra. }
  split; [lra |].
  pose proof (Rle_0_sqr (mu - 127.5)) as Sq. unfold Rsqr in Sq. nra.
Qed.

Lemma extractor_deviation_range : 0 <= redStdDev data <= 127.5.
Proof.
  rewrite extractor_variance. destruct extractor_variance_bound as [B1 B2].
  split; [apply sqrt_pos |].
  replace 127.5 with (sqrt (127.5 * 127.5)) by (apply sqrt_square; lra).
  now apply sqrt_le_1_alt.
Qed.

Lemma extractor_uniform :
  redStdDev data = 0 <->
  exists r : Z, forall d, In d (redChannel data) -> d = r.
Proof.
  assert (Hn : 0 < INR n) by now apply lt_0_INR.
  split.
  - intro H0. rewrite extractor_variance in H0.
    destruct extractor_variance_bound as [B1 _].
    apply sqrt_eq_0 in H0; [| exact B1].
    assert (Hs : Spec.sum (map (fun d => (IZR d - redAverage data)
                                         * (IZR d - redAverage data))
                               (redChannel data)) = 0).
    { apply Rmult_eq_reg_r with (/ INR n).
      - rewrite Rmult_0_l. exact H0.
      - apply Rinv_neq_0_compat. lra. }
    pose proof (sum_squares_zero (fun d => IZR d - redAverage data) _ Hs) as Hall.
    destruct (redChannel data) as [| r t] eqn:E.
    + exists 0%Z. intros d [].
    + exists r. intros d Hd.
      assert (H1 : IZR d - redAverage data = 0) by now apply Hall.
      assert (H2 : IZR r - redAverage data = 0) by (apply Hall; now left).
      apply eq_IZR. lra.
  - intros [r Hr].
    assert (Hmu : redAverage data = IZR r).
    { rewrite extractor_redAverage.
      rewrite (map_ext_in IZR (fun _ => IZR r)) by (intros d Hd; now rewrite (Hr d Hd)).
      rewrite sum_const, (proj1 (redChannel_quads n data quads)). field. lra. }
    rewrite extractor_variance, Hmu.
    rewrite (map_ext_in _ (fun _ => 0))
      by (intros d Hd; rewrite (Hr d Hd); ring).
    rewrite sum_const. replace (INR (length (redChannel data)) * 0 / INR n) with 0
      by (unfold Rdiv; ring).
    apply sqrt_0.
Qed.

End Extractor.

Lemma pixels_pos : (0 < VIDEO_WIDTH * VIDEO_HEIGHT)%nat.
Proof. unfold VIDEO_WIDTH, VIDEO_HEIGHT. lia. Qed.

(** X13. For a delivered frame the red average lies between 0 and 255 and
    the red deviation between 0 and 127.5, half the byte range. *)
Theorem extractor_ranges (data : list Z) :
  validFrame data ->
  0 <= redAverage data <= 255 /\ 0 <= redStdDev data <= 127.5.
Proof.
  intros [Hlen Hbytes]. split.
  - exact (extractor_average_range data _ Hlen pixels_pos Hbytes).
  - exact (extractor_deviation_range data _ Hlen pixels_pos Hbytes).
Qed.

Lemma extractor_ranges_witness :
  0 <= redAverage (twoToneFrame 0 255) <= 255 /\
  0 <= redStdDev (twoToneFrame 0 255) <= 127.5.
Proof.
  apply (extractor_ranges (twoToneFrame 0 255)). exact uncoveredFrame_valid.
Defined.

(** X14. The red deviation of a delivered frame is 0 exactly when every
    pixel has the same red value; such a frame never fails the coverage
    check. *)
Theorem extractor_uniform_frame (data : list Z) :
  validFrame data ->
  (redStdDev data = 0 <->
   exists r : Z, forall d, In d (redChannel data) -> d = r) /\
  ((exists r : Z, forall d, In d (redChannel data) -> d = r) ->
   ~ coverageFault data).
Proof.
  intros [Hlen Hbytes].
  pose proof (extractor_uniform data _ Hlen pixels_pos Hbytes) as U.
  split; [exact U |].
  intros Hr. apply U in Hr. unfold coverageFault, COVERAGE_STD_DEV_THRESHOLD.
  rewrite Hr. lra.
Qed.

Lemma extractor_uniform_frame_witness :
  redStdDev (twoToneFrame 110 110) = 0 <->
  exists r : Z, forall d, In d (redChannel (twoToneFrame 110 110)) -> d = r.
Proof.
  apply (extractor_uniform_frame (twoToneFrame 110 110)). exact jumpFrame_valid.
Defined.

(** ** Induction over the reachable states *)

Lemma reachable_branches (P : State -> Prop) :
  P initialState ->
  (forall s, reachable s -> P s -> P (coverageBranch s)) ->
  (forall s data, reachable s -> validFrame data -> P s ->
                  P (motionBranch s (redAverage data))) ->
  (forall s data, reachable s -> validFrame data -> accepted s data -> P s ->
                  P (acceptBranch s (redAverage data))) ->
  (forall s camera, reachable s -> P s -> P (startMonitoring s camera)) ->
  (forall s, reachable s -> P s -> P (stopMonitoring s)) ->
  forall s, reachable s -> P s.
Proof.
  intros Hinit Hcov Hmot Hacc Hstart Hstop s Hr.
  induction Hr as [| s e Hr IH He]; [exact Hinit |].
  destruct e as [[data |] | camera |]; cbn [step processFrame].
  - cbn [validEvent] in He.
    change (P (processFrame s (Some data))).
    destruct (processFrame_cases s data) as [[_ ->] | [(_ & _ & ->) | [Ha ->]]].
    + now apply Hcov.
    + now apply Hmot.
    + now apply Hacc.
  - exact IH.
  - now apply Hstart.
  - now apply Hstop.
Qed.

(** The two ways the accepting branch ends, with the state it leaves or
    hands to the processing branch. *)
Lemma acceptBranch_split (s : State) (x : R) :
  (length (dataBuffer s) <= BUFFER_SIZE)%nat ->
  ((S (length (dataBuffer s)) < BUFFER_SIZE)%nat /\
   acceptBranch s x
   = setStatus
       (Calibrating
          (Math_round (INR (S (length (dataBuffer s))) / INR BUFFER_SIZE * 100)))
       (set_dataBuffer (dataBuffer s ++ [x]) (set_lastRedAverage (Some x) s))) \/
  ((BUFFER_SIZE <= S (length (dataBuffer s)))%nat /\
   length (Spec.lastn BUFFER_SIZE (dataBuffer s ++ [x])) = BUFFER_SIZE /\
   acceptBranch s x
   = processingBranch
       (set_dataBuffer (Spec.lastn BUFFER_SIZE (dataBuffer s ++ [x]))
                       (set_lastRedAverage (Some x) s))).
Proof.
  intro Hlen.
  assert (Hpush : length (dataBuffer s ++ [x]) = S (length (dataBuffer s))).
  { rewrite length_app. cbn [length]. lia. }
  unfold acceptBranch. fields.
  destruct (Nat.ltb_spec BUFFER_SIZE (length (dataBuffer s ++ [x]))) as [L | L]; fields.
  - assert (E : Spec.lastn BUFFER_SIZE (dataBuffer s ++ [x]) = tl (dataBuffer s ++ [x])).
    { apply lastn_one_over. lia. }
    assert (Htl : length (tl (dataBuffer s ++ [x])) = length (dataBuffer s)).
    { destruct (dataBuffer s ++ [x]) as [| y t]; cbn [tl length] in *; lia. }
    destruct (Nat.ltb_spec (length (tl (dataBuffer s ++ [x]))) BUFFER_SIZE); [lia |].
    right. rewrite E. split; [lia |]. split; [lia | reflexivity].
  - assert (E : Spec.lastn BUFFER_SIZE (dataBuffer s ++ [x]) = dataBuffer s ++ [x]).
    { apply lastn_short. lia. }
    destruct (Nat.ltb_spec (length (dataBuffer s ++ [x])) BUFFER_SIZE).
    + left. split; [lia |]. rewrite Hpush. reflexivity.
    + right. rewrite E. split; [lia |]. split; [lia | reflexivity].
Qed.

Lemma processingBranch_session (t : State) :
  isMonitoring (processingBranch t) = isMonitoring t /\
  error (processingBranch t) = error t.
Proof.
  unfold processingBranch. fields.
  destruct (_ =? -1)%Z; fields; split; reflexivity.
Qed.

(** A full window always yields an update of the rate, by an estimate in
    the band. *)
Lemma processingBranch_full (t : State) :
  length (dataBuffer t) = BUFFER_SIZE ->
  exists b,
    45 <= b <= MAX_BPM + 1 /\
    heartRate (processingBranch t) = heartRate t * 0.9 + b * 0.1.
Proof.
  intro Hlen. rewrite processingBranch_heartRate. cbv zeta.
  set (filtered := lowPassFilter (detrendSignal (dataBuffer t)) LOW_PASS_ALPHA).
  assert (Hf : length filtered = BUFFER_SIZE).
  { unfold filtered.
    now rewrite lowPassFilter_same_length, detrendSignal_same_length. }
  pose proof (full_window_peak_found filtered Hf) as Hp.
  destruct (peakSearch_found _ _ _ Hp) as (Hband & _).
  exists (bpmOf (fst (peakSearch (calculateMagnitudes filtered)
                                 (minIndexOf (length filtered))
                                 (maxIndexOf (length filtered))))
                (length filtered)).
  split.
  - rewrite Hf in *. destruct band_full_window as [Hlo Hhi]. rewrite Hlo, Hhi in *.
    rewrite bpm_full_window. unfold MAX_BPM.
    destruct Hband as [H1 H2]. apply IZR_le in H1, H2. lra.
  - apply Z.eqb_neq in Hp. now rewrite Hp.
Qed.

Lemma signalPadding_pos (filtered : list R) :
  filtered <> [] -> 0 < signalPadding filtered /\ Math_min filtered <= Math_max filtered.
Proof.
  intro Hne.
  destruct (Math_min_isMin filtered Hne) as [Hin Hmin].
  destruct (Math_max_isMax filtered Hne) as [_ Hmax].
  assert (Hle : Math_min filtered <= Math_max filtered).
  { pose proof (Hmin _ Hin). pose proof (Hmax _ Hin). lra. }
  split; [| exact Hle].
  unfold signalPadding.
  destruct (Req_dec_T ((Math_max filtered - Math_min filtered) * 0.1) 0); lra.
Qed.

Lemma nextYDomain_height (filtered : list R) (prev : YDomain) :
  filtered <> [] ->
  (forall lo hi, prev = Bounded lo hi -> lo < hi) ->
  exists lo hi, nextYDomain filtered prev = Bounded lo hi /\ lo < hi.
Proof.
  intros Hne Hprev. destruct (signalPadding_pos filtered Hne) as [Hpad Hle].
  unfold nextYDomain. destruct prev as [| lo hi].
  - eexists. eexists. split; [reflexivity | lra].
  - specialize (Hprev lo hi eq_refl).
    eexists. eexists. split; [reflexivity | lra].
Qed.

(** ** Invariants of the reachable states *)

Lemma Forall_skipn_R (P : R -> Prop) (k : nat) :
  forall l, Forall P l -> Forall P (skipn k l).
Proof.
  induction k as [| k IH]; intros l H; [exact H |].
  destruct l as [| x t]; [constructor |].
  inversion H; subst. cbn [skipn]. now apply IH.
Qed.

Lemma validFrame_average (data : list Z) :
  validFrame data -> 0 <= redAverage data <= 255.
Proof.
  intros [Hlen Hbytes].
  exact (extractor_average_range data _ Hlen pixels_pos Hbytes).
Qed.

Lemma reachable_sampleInvariant (s : State) : reachable s -> sampleInvariant s.
Proof.
  apply reachable_branches; unfold sampleInvariant.
  - constructor.
  - intros s0 _ H. unfold coverageBranch. fields.
    destruct (0 <? length (dataBuffer s0))%nat; fields; [constructor | exact H].
  - intros s0 data _ _ _. unfold motionBranch. fields. constructor.
  - intros s0 data Hr Hv _ H.
    rewrite acceptBranch_lastn by now destruct (reachable_windowInvariant s0 Hr).
    unfold Spec.lastn. apply Forall_skipn_R, Forall_app. split; [exact H |].
    constructor; [now apply validFrame_average | constructor].
  - intros s0 camera _ H. unfold startMonitoring.
    destruct (isMonitoring s0); [exact H |]. destruct camera; fields; exact H.
  - intros s0 _ H. unfold stopMonitoring.
    destruct (isMonitoring s0); cbn [negb]; fields; [apply Forall_nil | exact H].
Qed.

(** X15. In every reachable state each sample of the window lies between
    0 and 255. *)
Theorem window_samples_are_bytes (s : State) :
  reachable s -> Forall (fun x => 0 <= x <= 255) (dataBuffer s).
Proof. exact (reachable_sampleInvariant s). Qed.

Lemma window_samples_are_bytes_witness :
  Forall (fun x => 0 <= x <= 255)
         (dataBuffer (processFrame sessionStart (Some (twoToneFrame 98 102)))).
Proof.
  apply (window_samples_are_bytes
           (processFrame sessionStart (Some (twoToneFrame 98 102)))).
  exact (reach_step sessionStart (EFrame (Some (twoToneFrame 98 102)))
                    reachable_sessionStart flatFrame_valid).
Defined.




Lemma reachable_runFrames (frames : list (list Z)) :
  forall s, reachable s -> Forall validFrame frames ->
            reachable (runFrames s frames).
Proof.
  induction frames as [| data rest IH]; intros s Hs Hf; [exact Hs |].
  inversion Hf as [| ? ? Hd Hrest]; subst.
  change (runFrames s (data :: rest))
    with (runFrames (processFrame s (Some data)) rest).
  apply IH; [| exact Hrest].
  exact (reach_step s (EFrame (Some data)) Hs Hd).
Qed.

Lemma reachable_first_flat :
  reachable (processFrame sessionStart (Some (twoToneFrame 98 102))).
Proof.
  exact (reach_step sessionStart (EFrame (Some (twoToneFrame 98 102)))
                    reachable_sessionStart flatFrame_valid).
Qed.



Lemma reachable_displayInvariant (s : State) : reachable s -> displayInvariant s.
Proof.
  pose proof BUFFER_SIZE_pos as Hpos.
  assert (Hreset : forall t,
             heartRate t = 0 -> chartData t = [] -> yDomain t = Auto ->
             dataBuffer t = [] -> displayInvariant t).
  { intros t Hh Hc Hy Hb. unfold displayInvariant. rewrite Hh, Hc, Hy, Hb.
    unfold MAX_BPM. cbn [length].
    split; [lra |]. split; [intro E; lia |].
    split; [intros lo hi E; discriminate | intros i Hi; lia]. }
  apply reachable_branches.
  - now apply Hreset.
  - intros s0 Hr H. unfold coverageBranch. fields.
    destruct (Nat.ltb_spec 0 (length (dataBuffer s0))); fields.
    + now apply Hreset.
    + exact H.
  - intros s0 data _ _ _. now apply Hreset.
  - intros s0 data Hr _ _ (Hrate & Hfull & Hdom & Htime).
    destruct (reachable_windowInvariant s0 Hr) as [Hlen _].
    destruct (acceptBranch_split s0 (redAverage data) Hlen)
      as [[Hs ->] | (Hs & Hw & ->)].
    + unfold displayInvariant. fields. rewrite length_app. cbn [length].
      split; [exact Hrate |]. split; [intro E; lia |].
      split; [exact Hdom | exact Htime].
    + set (t := set_dataBuffer (Spec.lastn BUFFER_SIZE (dataBuffer s0 ++ [redAverage data]))
                               (set_lastRedAverage (Some (redAverage data)) s0)).
      assert (Ht : length (dataBuffer t) = BUFFER_SIZE) by exact Hw.
      set (filtered := lowPassFilter (detrendSignal (dataBuffer t)) LOW_PASS_ALPHA).
      assert (Hf : length filtered = BUFFER_SIZE).
      { unfold filtered.
        now rewrite lowPassFilter_same_length, detrendSignal_same_length. }
      assert (Hne : filtered <> []).
      { intro E. rewrite E in Hf. cbn [length] in Hf. lia. }
      destruct (processingBranch_full t Ht) as (b & Hb & Hnew).
      destruct (processingBranch_display t) as [Hy Hc]. fold filtered in Hy, Hc.
      destruct (nextYDomain_height filtered (yDomain t) Hne Hdom) as (lo & hi & Hnext & Hlt).
      assert (Hnew' : 4.5 <= heartRate (processingBranch t) <= MAX_BPM + 1).
      { rewrite Hnew. change (heartRate t) with (heartRate s0).
        unfold MAX_BPM in *. lra. }
      unfold displayInvariant. rewrite Hy, Hc, Hnext, mapi_length, Hf.
      split; [lra |]. split; [| split].
      * intros _. split; [lra |]. split; [reflexivity | discriminate].
      * intros lo' hi' E. injection E as <- <-. exact Hlt.
      * intros i Hi.
        rewrite (mapi_nth _ filtered i 0 (mkPoint 0 0)) by now rewrite Hf.
        reflexivity.
  - intros s0 camera _ H. unfold startMonitoring.
    destruct (isMonitoring s0); [exact H |].
    destruct camera; unfold displayInvariant in *; fields; exact H.
  - intros s0 _ H. unfold stopMonitoring.
    destruct (isMonitoring s0); cbn [negb]; [| exact H].
    now apply Hreset.
Qed.

(** X17. In every reachable state the smoothed rate lies between 0 and
    201 BPM, and it is exactly 0, the sentinel for no reading, exactly
    when the window is not full; with a full window it is at least 4.5. *)
Theorem heart_rate_range (s : State) :
  reachable s ->
  0 <= heartRate s <= MAX_BPM + 1 /\
  (heartRate s = 0 <-> (length (dataBuffer s) < BUFFER_SIZE)%nat) /\
  (length (dataBuffer s) = BUFFER_SIZE -> 4.5 <= heartRate s).
Proof.
  intro Hr.
  destruct (reachable_displayInvariant s Hr) as (Hrate & Hfull & _).
  destruct (reachable_windowInvariant s Hr) as [Hlen Hidle].
  split; [exact Hrate |]. split.
  - split.
    + intro H0. destruct (Nat.lt_ge_cases (length (dataBuffer s)) BUFFER_SIZE) as [L | L];
        [exact L |].
      destruct Hfull as [H45 _]; [lia | lra].
    + intro L. now destruct (Hidle L).
  - intro E. now destruct (Hfull E).
Qed.

Lemma heart_rate_range_witness :
  0 <= heartRate (processFrame sessionStart (Some (twoToneFrame 98 102)))
  <= MAX_BPM + 1.
Proof.
  apply (heart_rate_range (processFrame sessionStart (Some (twoToneFrame 98 102)))).
  exact reachable_first_flat.
Defined.

(** X18. In every reachable state a display range that is not the auto
    sentinel has its lower bound strictly below its upper bound, and the
    range is the auto sentinel exactly when the window is not full. *)
Theorem display_range_height (s : State) :
  reachable s ->
  (forall lo hi, yDomain s = Bounded lo hi -> lo < hi) /\
  (yDomain s = Auto <-> (length (dataBuffer s) < BUFFER_SIZE)%nat).
Proof.
  intro Hr.
  destruct (reachable_displayInvariant s Hr) as (_ & Hfull & Hdom & _).
  destruct (reachable_windowInvariant s Hr) as [Hlen Hidle].
  split; [exact Hdom |]. split.
  - intro Ha. destruct (Nat.lt_ge_cases (length (dataBuffer s)) BUFFER_SIZE) as [L | L];
      [exact L |].
    destruct Hfull as (_ & _ & Hn); [lia | contradiction].
  - intro L. now destruct (Hidle L) as (_ & _ & ?).
Qed.

Lemma display_range_height_witness :
  yDomain (processFrame sessionStart (Some (twoToneFrame 98 102))) = Auto
  <-> (length (dataBuffer (processFrame sessionStart (Some (twoToneFrame 98 102))))
       < BUFFER_SIZE)%nat.
Proof.
  apply (display_range_height (processFrame sessionStart (Some (twoToneFrame 98 102)))).
  exact reachable_first_flat.
Defined.

(** X19. What the chart shows: in every reachable state [SignalChart]
    renders the placeholder for no data exactly when the window is not
    full, and otherwise a line chart of [BUFFER_SIZE] points whose times
    are their positions 0, 1, 2, ... *)
Theorem chart_matches_window (s : State) :
  reachable s ->
  (SignalChart (chartData s) = WaitingForData
   <-> (length (dataBuffer s) < BUFFER_SIZE)%nat) /\
  (length (dataBuffer s) = BUFFER_SIZE ->
   SignalChart (chartData s) = LineChart (chartData s) /\
   length (chartData s) = BUFFER_SIZE) /\
  (forall i, (i < length (chartData s))%nat ->
             time (nth i (chartData s) (mkPoint 0 0)) = i).
Proof.
  intro Hr. pose proof BUFFER_SIZE_pos as Hpos.
  destruct (reachable_displayInvariant s Hr) as (_ & Hfull & _ & Htime).
  destruct (reachable_windowInvariant s Hr) as [Hlen Hidle].
  split; [| split; [| exact Htime]].
  - unfold SignalChart. split.
    + intro Hw. destruct (Nat.lt_ge_cases (length (dataBuffer s)) BUFFER_SIZE) as [L | L];
        [exact L |].
      destruct Hfull as (_ & Hc & _); [lia |].
      rewrite Hc in Hw. destruct (Nat.ltb_spec 0 BUFFER_SIZE); [discriminate | lia].
    + intro L. destruct (Hidle L) as (_ & -> & _). reflexivity.
  - intro E. destruct (Hfull E) as (_ & Hc & _). split; [| exact Hc].
    unfold SignalChart. rewrite Hc.
    destruct (Nat.ltb_spec 0 BUFFER_SIZE); [reflexivity | lia].
Qed.

Lemma chart_matches_window_witness :
  SignalChart (chartData (processFrame sessionStart (Some (twoToneFrame 98 102))))
  = WaitingForData
  <-> (length (dataBuffer (processFrame sessionStart (Some (twoToneFrame 98 102))))
       < BUFFER_SIZE)%nat.
Proof.
  apply (chart_matches_window (processFrame sessionStart (Some (twoToneFrame 98 102)))).
  exact reachable_first_flat.
Defined.

(** ** The window holds no jump *)

Lemma steadySamples_snoc (l : list R) (x : R) :
  steadySamples l ->
  (l <> [] -> Rabs (x - last l 0) <= MOTION_THRESHOLD) ->
  steadySamples (l ++ [x]).
Proof.
  induction l as [| a t IH]; intros Hs Hx; [exact I |].
  destruct t as [| b u].
  - cbn [app steadySamples last] in *. split; [| exact I].
    apply Hx. discriminate.
  - cbn [steadySamples] in Hs. destruct Hs as [Hab Hs].
    change ((a :: b :: u) ++ [x]) with (a :: b :: (u ++ [x])).
    cbn [steadySamples]. split; [exact Hab |].
    change (b :: u ++ [x]) with ((b :: u) ++ [x]).
    apply IH; [exact Hs |]. intros _. apply Hx. discriminate.
Qed.

Lemma steadySamples_tl (l : list R) : steadySamples l -> steadySamples (tl l).
Proof.
  destruct l as [| a [| b u]]; cbn [tl steadySamples]; easy.
Qed.

Lemma last_tl (l : list R) : tl l <> [] -> last (tl l) 0 = last l 0.
Proof.
  destruct l as [| a [| b u]]; cbn [tl]; try easy.
Qed.

Lemma steadySamples_nth (l : list R) :
  steadySamples l ->
  forall i, (S i < length l)%nat ->
            Rabs (nth (S i) l 0 - nth i l 0) <= MOTION_THRESHOLD.
Proof.
  induction l as [| a t IH]; intros Hs i Hi; [cbn [length] in Hi; lia |].
  destruct t as [| b u]; [cbn [length] in Hi; lia |].
  cbn [steadySamples] in Hs. destruct Hs as [Hab Hs].
  destruct i as [| i]; [exact Hab |].
  change (nth (S (S i)) (a :: b :: u) 0) with (nth (S i) (b :: u) 0).
  change (nth (S i) (a :: b :: u) 0) with (nth i (b :: u) 0).
  apply IH; [exact Hs |]. cbn [length] in *. lia.
Qed.

Lemma processFrame_steady (s : State) (frame : option (list Z)) :
  steadyWindow s -> steadyWindow (processFrame s frame).
Proof.
  intros [Hs Hl]. destruct frame as [data |]; [| now split].
  destruct (processFrame_cases s data) as [[_ ->] | [(_ & _ & ->) | [Ha ->]]].
  - unfold coverageBranch, steadyWindow. fields.
    destruct (0 <? length (dataBuffer s))%nat; fields.
    + split; [exact I | intro H; now contradiction H].
    + split; assumption.
  - unfold motionBranch, steadyWindow. fields.
    split; [exact I | intro H; now contradiction H].
  - destruct (acceptBranch_buffer s (redAverage data)) as [Hb Hlast].
    assert (Hpush : steadySamples (dataBuffer s ++ [redAverage data])).
    { apply steadySamples_snoc; [exact Hs |]. intro Hne.
      destruct Ha as [_ Hm]. unfold motionFault in Hm.
      rewrite (Hl Hne) in Hm. lra. }
    unfold steadyWindow. rewrite Hb, Hlast.
    destruct (BUFFER_SIZE <? length (dataBuffer s ++ [redAverage data]))%nat.
    + split; [now apply steadySamples_tl |].
      intro Hne. rewrite last_tl by exact Hne. now rewrite last_last.
    + split; [exact Hpush |]. intros _. now rewrite last_last.
Qed.

(** X20. Frame passes never leave a jump in the window: along every run
    of frames from a state whose window has none, neighbouring samples of
    the window differ by at most [MOTION_THRESHOLD], and the previous
    average on record is the newest sample of the window. *)
Theorem window_holds_no_jump (s : State) (frames : list (list Z)) :
  steadyWindow s ->
  (forall i, (S i < length (dataBuffer (runFrames s frames)))%nat ->
             Rabs (nth (S i) (dataBuffer (runFrames s frames)) 0
                   - nth i (dataBuffer (runFrames s frames)) 0)
             <= MOTION_THRESHOLD) /\
  (dataBuffer (runFrames s frames) <> [] ->
   lastRedAverage (runFrames s frames)
   = Some (last (dataBuffer (runFrames s frames)) 0)).
Proof.
  intro H.
  assert (G : steadyWindow (runFrames s frames)).
  { revert s H. induction frames as [| data rest IH]; intros s H; [exact H |].
    change (runFrames s (data :: rest))
      with (runFrames (processFrame s (Some data)) rest).
    apply IH. now apply processFrame_steady. }
  destruct G as [Gs Gl]. split; [now apply steadySamples_nth | exact Gl].
Qed.

Lemma window_holds_no_jump_witness :
  Rabs (nth 1 (dataBuffer (runFrames sessionStart
                             [twoToneFrame 98 102; twoToneFrame 98 102])) 0
        - nth 0 (dataBuffer (runFrames sessionStart
                               [twoToneFrame 98 102; twoToneFrame 98 102])) 0)
  <= MOTION_THRESHOLD.
Proof.
  assert (Hs : steadyWindow sessionStart).
  { unfold steadyWindow, sessionStart, startMonitoring, initialState. fields.
    split; [exact I | intro H; now contradiction H]. }
  apply (proj1 (window_holds_no_jump sessionStart
                  [twoToneFrame 98 102; twoToneFrame 98 102] Hs)).
  destruct (afterFlat_run [twoToneFrame 98 102; twoToneFrame 98 102] 0 sessionStart
              afterFlat_sessionStart (flat_frames 2)) as (-> & _).
  rewrite repeat_length, BUFFER_SIZE_value. cbn [length Nat.add]. lia.
Defined.

(** ** A session from start to stop *)

Lemma processFrame_session (s : State) (frame : option (list Z)) :
  isMonitoring (processFrame s frame) = isMonitoring s /\
  error (processFrame s frame) = error s.
Proof.
  destruct frame as [data |]; [| now split].
  destruct (processFrame_cases s data) as [[_ ->] | [(_ & _ & ->) | [_ ->]]].
  - unfold coverageBranch. fields.
    destruct (0 <? length (dataBuffer s))%nat; fields; split; reflexivity.
  - unfold motionBranch. fields. split; reflexivity.
  - unfold acceptBranch. fields.
    repeat match goal with
           | |- context [if ?c then _ else _] => destruct c; fields
           end;
      try (split; reflexivity);
      match goal with
      | |- isMonitoring (processingBranch ?t) = _ /\ _ =>
          destruct (processingBranch_session t) as [-> ->]; fields; split; reflexivity
      end.
Qed.

Lemma runFrames_session (frames : list (list Z)) :
  forall s,
    isMonitoring (runFrames s frames) = isMonitoring s /\
    error (runFrames s frames) = error s.
Proof.
  induction frames as [| data rest IH]; intro s; [now split |].
  change (runFrames s (data :: rest))
    with (runFrames (processFrame s (Some data)) rest).
  destruct (IH (processFrame s (Some data))) as [-> ->].
  apply processFrame_session.
Qed.

(** X21. A session leaves no trace: starting from the initial state with
    a granted camera, processing any frames and stopping gives the initial
    state back. *)
Theorem session_leaves_no_trace (frames : list (list Z)) :
  stopMonitoring (runFrames (startMonitoring initialState CameraOk) frames)
  = initialState.
Proof.
  destruct (runFrames_session frames (startMonitoring initialState CameraOk))
    as [Hm He].
  unfold stopMonitoring. rewrite Hm.
  change (isMonitoring (startMonitoring initialState CameraOk)) with true.
  cbn [negb]. unfold setYDomain, set_lastRedAverage, set_dataBuffer, setStatus,
    setChartData, setHeartRate, setIsMonitoring.
  cbn [isMonitoring heartRate chartData status error yDomain dataBuffer lastRedAverage].
  rewrite He. reflexivity.
Qed.

(** ** The hint over the video *)





(** ** How long calibration takes *)





(** ** The plotted values *)

Lemma range_incl_length (a b : Z) :
  length (range_incl a b) = Z.to_nat (b - a + 1).
Proof. unfold range_incl. now rewrite length_map, length_seq. Qed.

Lemma localMean_between (x : list R) (lo hi : R) (i : nat) :
  Forall (fun v => lo <= v <= hi) x ->
  (i < length x)%nat ->
  lo <= Spec.localMean x i <= hi.
Proof.
  intros Hx Hi. unfold Spec.localMean. change (30 / 2)%Z with 15%Z.
  set (a := Z.max 0 (Z.of_nat i - 15)).
  set (b := Z.min (Z.of_nat (length x) - 1) (Z.of_nat i + 15)).
  assert (Ha : (0 <= a <= Z.of_nat i)%Z) by (unfold a; lia).
  assert (Hb : (Z.of_nat i <= b < Z.of_nat (length x))%Z) by (unfold b; lia).
  pose proof (sum_between (fun j => nth (Z.to_nat j) x 0) lo hi (range_incl a b)) as B.
  destruct B as [B1 B2].
  { intros j Hj. apply in_range_incl in Hj.
    rewrite Forall_forall in Hx. apply Hx, nth_In. lia. }
  rewrite range_incl_length, INR_IZR_INZ, Z2Nat.id in B1, B2 by lia.
  assert (Hc : 0 < IZR (b - a + 1)) by (apply IZR_lt; lia).
  split.
  - apply div_le_lower; [exact Hc | lra].
  - apply div_le_upper; [exact Hc | lra].
Qed.

Lemma detrendSignal_between (x : list R) :
  Forall (fun v => 0 <= v <= 255) x ->
  Forall (fun v => -255 <= v <= 255) (detrendSignal x).
Proof.
  intro Hx. destruct (Nat.lt_ge_cases (length x) 3) as [L | L].
  - unfold detrendSignal. destruct (Nat.ltb_spec (length x) 3); [| lia].
    eapply Forall_impl; [| exact Hx]. cbv beta. intros v Hv. lra.
  - apply Forall_forall. intros v Hv.
    destruct (In_nth _ _ 0 Hv) as (i & Hi & <-).
    rewrite detrendSignal_same_length in Hi.
    rewrite detrendSignal_nth by assumption.
    pose proof (localMean_between x 0 255 i Hx Hi).
    assert (0 <= nth i x 0 <= 255).
    { rewrite Forall_forall in Hx. now apply Hx, nth_In. }
    lra.
Qed.

Lemma mapi_from_values (l : list R) (k : nat) :
  map value (mapi_from k (fun value index => mkPoint index value) l) = l.
Proof.
  revert k; induction l as [| x t IH]; intro k; [reflexivity |].
  cbn [mapi_from map value]. now rewrite IH.
Qed.

Lemma processed_between (w : list R) :
  Forall (fun v => 0 <= v <= 255) w ->
  Forall (fun v => -255 <= v <= 255)
         (lowPassFilter (detrendSignal w) LOW_PASS_ALPHA).
Proof.
  intro Hw. pose proof (detrendSignal_between w Hw) as Hd.
  rewrite lowPassFilter_recursion.
  destruct (detrendSignal w) as [| x t]; [constructor |].
  inversion Hd as [| ? ? Hx Ht]; subst.
  cbn [Spec.lowPass]. constructor; [exact Hx |].
  apply iir_between; [unfold LOW_PASS_ALPHA; lra | exact Hx | exact Ht].
Qed.

(** X24. In every reachable state every plotted value lies between -255
    and 255, and the chart plots the processed signal of the window: its
    values are the window's samples detrended and filtered. *)
Theorem chart_values (s : State) :
  reachable s ->
  Forall (fun p => -255 <= value p <= 255) (chartData s) /\
  (length (dataBuffer s) = BUFFER_SIZE ->
   map value (chartData s)
   = lowPassFilter (detrendSignal (dataBuffer s)) LOW_PASS_ALPHA).
Proof.
  pose proof BUFFER_SIZE_pos as Hpos. revert s.
  apply reachable_branches.
  - split; [constructor | cbn [initialState dataBuffer length]; lia].
  - intros s0 Hr [Hv Hc]. unfold coverageBranch. fields.
    destruct (Nat.ltb_spec 0 (length (dataBuffer s0))); fields.
    + split; [constructor | cbn [length]; lia].
    + split; assumption.
  - intros s0 data _ _ _. unfold motionBranch. fields.
    split; [constructor | cbn [length]; lia].
  - intros s0 data Hr Hvalid _ [Hv Hc].
    destruct (reachable_windowInvariant s0 Hr) as [Hlen _].
    destruct (acceptBranch_split s0 (redAverage data) Hlen)
      as [[Hs ->] | (Hs & Hw & ->)].
    + fields. split; [exact Hv |].
      rewrite length_app. cbn [length]. lia.
    + set (w := Spec.lastn BUFFER_SIZE (dataBuffer s0 ++ [redAverage data])) in *.
      set (t := set_dataBuffer w (set_lastRedAverage (Some (redAverage data)) s0)).
      destruct (processingBranch_display t) as [_ Hchart].
      destruct (processingBranch_buffer t) as (Hbuf & _).
      assert (Hvals : map value (chartData (processingBranch t))
                      = lowPassFilter (detrendSignal w) LOW_PASS_ALPHA).
      { rewrite Hchart. apply mapi_from_values. }
      assert (Hbytes : Forall (fun v => 0 <= v <= 255) w).
      { unfold w, Spec.lastn. apply Forall_skipn_R, Forall_app.
        split; [exact (reachable_sampleInvariant s0 Hr) |].
        constructor; [now apply validFrame_average | constructor]. }
      split.
      * apply Forall_map with (f := value) (P := fun v => -255 <= v <= 255).
        rewrite Hvals. now apply processed_between.
      * intros _. rewrite Hbuf. exact Hvals.
  - intros s0 camera _ H. unfold startMonitoring.
    destruct (isMonitoring s0); [exact H |].
    destruct camera; fields; exact H.
  - intros s0 _ H. unfold stopMonitoring.
    destruct (isMonitoring s0); cbn [negb]; [| exact H].
    fields. split; [constructor | cbn [length]; lia].
Qed.

Lemma chart_values_witness :
  Forall (fun p => -255 <= value p <= 255)
         (chartData (processFrame sessionStart (Some (twoToneFrame 98 102)))).
Proof.
  apply (chart_values (processFrame sessionStart (Some (twoToneFrame 98 102)))).
  exact reachable_first_flat.
Defined.

(** ** After a coverage fault *)



